(** * Selfie2BitmojiModel: the training graph of [models/s2b_model.py]

    The Python class builds a TensorFlow 1.x graph.  Graph construction is
    embedded as a state-and-exception monad over

    - the variable store of the graph (name -> shape, trainable flag,
      initialiser), a [gmap] keyed by the full variable name,
    - the number of random sampling ops created so far,
    - the instance dictionary of [self] (attribute name -> tensor).

    Tensors are symbolic graph nodes.  The numeric claims (softmax segments,
    total variation, the re-parameterised sample) are stated on a value-level
    reading of the same ops over the real numbers. *)

From Stdlib Require Import Reals Lra Lia QArith.
From Stdlib Require Import DecimalString.
From stdpp Require Import gmap strings list fin_maps.

Local Open Scope string_scope.
Local Open Scope nat_scope.
Set Warnings "-register-all".

(** ** Configuration: [model_architectures], [utils.bitmoji_api], CLI args *)

(** One entry of [model_architectures]: a dict of four parallel lists. *)
Record arch := Arch {
  conv_filters : list nat;
  filter_widths : list nat;
  strides : list nat;
  padding : list string
}.

(** The module [model_architectures] (imported as [archs]) is not part of the
    sources; its constants are taken as parameters. *)
Record archs_module := Archs {
  IMG_DIMS : list nat;
  FACE_ENCODING_SIZE : nat;
  GENERATOR_INPUT_SIZE : nat;
  generator_model : arch;
  avatar_synth_model : arch;
  param_encoder_model : arch
}.

(** [self.args]: the command line arguments the model reads. *)
Record cli_args := Args {
  batch_size : nat;
  keep_prob : Q;
  lr_g : Q
}.

(** ** Symbolic tensors *)

Inductive activation := relu | tanh | leaky_relu | sigmoid.

Inductive initializer :=
| default_initializer
| narrow_truncated_normal_initializer
| zeros_initializer.

(** A static dimension: [None] is an unknown (batch) dimension. *)
Definition dim := option nat.

Inductive tensor : Type :=
| Placeholder (name : string) (shape : list dim)
(* utils.vae_gan helpers: not part of the sources, kept as uninterpreted
   nodes.  The weights these layers create under [Face_Encoder/Encode] are
   not in the variable store of the model, and no property below speaks of
   them. *)
| VaeConv2d (scope name : string) (output_dim : nat) (x : tensor)
| VaeBatchNormal (scope name : string) (x : tensor)
| VaeFullyConnect (scope name : string) (output_size : nat) (x : tensor)
(* tf.nn.* applied directly *)
| Activation (a : activation) (x : tensor)
| Softmax (x : tensor)
(* tf.layers.* and tensorpack Dropout *)
| Dense (layer : string) (units : nat) (act : option activation) (x : tensor)
| Conv2D (layer : string) (filters kernel stride : nat) (pad : string)
         (act : option activation) (x : tensor)
| Conv2DTranspose (layer : string) (filters kernel stride : nat) (pad : string)
                  (act : option activation) (x : tensor)
| BatchNormalization (layer : string) (x : tensor)
| Dropout (keep : Q) (x : tensor)
| Flatten (x : tensor)
(* shape ops *)
| Reshape (shape : list dim) (x : tensor)
| Split (sizes : list nat) (k : nat) (x : tensor)
| Concat (xs : list tensor) (axis : nat)
| SliceFrom1 (axis : nat) (x : tensor)
| Zeros (shape : list dim)
(* arithmetic *)
| One
| Add (a b : tensor)
| Sub (a b : tensor)
| Mul (a b : tensor)
| Square (x : tensor)
| Sqrt (x : tensor)
| Exp (x : tensor)
| Log (x : tensor)
| ReduceMean (x : tensor)
| RandomNormal (op : nat) (shape : list nat).

(** Rank and last static dimension, as far as the layers need them to size
    their kernels. *)
Fixpoint rank (t : tensor) : nat :=
  match t with
  | Placeholder _ shape | Reshape shape _ | Zeros shape => length shape
  | RandomNormal _ shape => length shape
  | VaeConv2d _ _ _ x | VaeBatchNormal _ _ x | VaeFullyConnect _ _ _ x
  | Activation _ x | Softmax x | Dense _ _ _ x | BatchNormalization _ x
  | Dropout _ x | Split _ _ x | SliceFrom1 _ x
  | Square x | Sqrt x | Exp x | Log x => rank x
  | Conv2D _ _ _ _ _ _ _ | Conv2DTranspose _ _ _ _ _ _ _ => 4
  | Flatten _ => 2
  | Concat xs _ => match xs with [] => 0 | x :: _ => rank x end
  | One | ReduceMean _ => 0
  | Add a b | Sub a b | Mul a b => Nat.max (rank a) (rank b)
  end.

Fixpoint last_dim (t : tensor) : dim :=
  match t with
  | Placeholder _ shape | Reshape shape _ | Zeros shape => mjoin (last shape)
  | RandomNormal _ shape => last shape
  | VaeConv2d _ _ d _ | VaeFullyConnect _ _ d _ | Dense _ d _ _
  | Conv2D _ d _ _ _ _ _ | Conv2DTranspose _ d _ _ _ _ _ => Some d
  | VaeBatchNormal _ _ x | Activation _ x | Softmax x
  | BatchNormalization _ x | Dropout _ x | Square x | Sqrt x | Exp x | Log x =>
      last_dim x
  | SliceFrom1 axis x => if decide (S axis = rank x) then None else last_dim x
  | Split sizes k x => sizes !! k
  | Flatten _ => None
  | Concat xs axis =>
      match xs with
      | [] => None
      | x :: _ =>
          if decide (S axis = rank x)
          then foldr (fun y acc => d ← last_dim y; a ← acc; Some (d + a))
                     (Some 0) xs
          else last_dim x
      end
  | One | ReduceMean _ => None
  | Add a b | Sub a b | Mul a b =>
      match last_dim a with Some d => Some d | None => last_dim b end
  end.

(** ** Graph state and the construction monad *)

Record variable := Var {
  var_shape : list nat;
  var_trainable : bool;
  var_init : initializer
}.

Record state := State {
  variables : gmap string variable;   (* tf.global_variables(), by name *)
  random_ops : nat;                   (* sampling ops created so far *)
  attrs : gmap string tensor          (* self.__dict__, apart from args *)
}.

Inductive exn :=
| AttributeError (attr : string)
| IndexError
| ValueError (msg : string).

Definition M (A : Type) : Type := state -> (exn + A) * state.

Definition ret {A} (a : A) : M A := fun s => (inr a, s).
Definition raise {A} (e : exn) : M A := fun s => (inl e, s).
Definition bind {A B} (m : M A) (k : A -> M B) : M B :=
  fun s => match m s with
           | (inr a, s') => k a s'
           | (inl e, s') => (inl e, s')
           end.

Declare Scope graph_scope.
Delimit Scope graph_scope with graph.
Notation "x <~ m ; k" := (bind m (fun x => k))
  (at level 100, m at next level, right associativity) : graph_scope.
Notation "m ;; k" := (bind m (fun _ => k))
  (at level 100, right associativity) : graph_scope.
Local Open Scope graph_scope.

(** [l[i]] on a Python list with a non-negative index. *)
Definition index {A} (l : list A) (i : nat) : M A :=
  match l !! i with
  | Some a => ret a
  | None => raise IndexError
  end.

(** [self.name] and [self.name = v]. *)
Definition getattr (name : string) : M tensor :=
  fun s => match attrs s !! name with
           | Some t => (inr t, s)
           | None => (inl (AttributeError name), s)
           end.

Definition setattr (name : string) (t : tensor) : M unit :=
  fun s => (inr tt, State (variables s) (random_ops s) (<[name := t]> (attrs s))).

(** [for i in xrange(n)] with one loop-carried value. *)
Fixpoint for_range {A} (idxs : list nat) (body : nat -> A -> M A) (a : A) : M A :=
  match idxs with
  | [] => ret a
  | i :: rest => a' <~ body i a; for_range rest body a'
  end.

Definition xrange (n : nat) : list nat := seq 0 n.

(** [str(i)] for a non-negative integer. *)
Definition str (i : nat) : string := NilEmpty.string_of_uint (Nat.to_uint i).

(** ** TensorFlow primitives used by the model *)

(** The [reuse] argument of [tf.variable_scope] and of the [tf.layers]
    functions.  TensorFlow's [variable_scope.__init__] turns [reuse=False]
    into [None]: a scope cannot leave the reuse mode it inherits. *)
Inductive reuse_arg := reuse_None | reuse_False | reuse_True | reuse_AUTO.

(** The reuse mode a scope ends up in. *)
Inductive reuse_mode := creating | reusing | AUTO_REUSE.

Record var_scope := Scope {
  scope_name : string;
  scope_reuse : reuse_mode
}.

Definition resolve_reuse (arg : reuse_arg) (inherited : reuse_mode) : reuse_mode :=
  match arg with
  | reuse_True => reusing
  | reuse_AUTO => AUTO_REUSE
  | reuse_None | reuse_False => inherited
  end.

Definition root_scope : var_scope := Scope "" creating.

Definition scoped (outer name : string) : string :=
  match outer with
  | EmptyString => name
  | _ => outer +:+ "/" +:+ name
  end.

(** [with tf.variable_scope(name, reuse=arg):] entered inside [outer]. *)
Definition variable_scope (name : string) (arg : reuse_arg) (outer : var_scope)
  : var_scope :=
  Scope (scoped (scope_name outer) name) (resolve_reuse arg (scope_reuse outer)).

(** [tf.get_variable] under a given reuse mode. *)
Definition get_variable (mode : reuse_mode) (name : string) (shape : list nat)
    (init : initializer) (trainable : bool) : M unit :=
  fun s =>
    match variables s !! name with
    | Some v =>
        match mode with
        | creating => (inl (ValueError "variable already exists"), s)
        | reusing | AUTO_REUSE =>
            if decide (var_shape v = shape) then (inr tt, s)
            else (inl (ValueError "shape mismatch on shared variable"), s)
        end
    | None =>
        match mode with
        | reusing => (inl (ValueError "variable does not exist"), s)
        | creating | AUTO_REUSE =>
            (inr tt, State (<[name := Var shape trainable init]> (variables s))
                           (random_ops s) (attrs s))
        end
    end.

(** The channel (last) dimension a layer needs to size its kernel. *)
Definition input_channels (x : tensor) : M nat :=
  match last_dim x with
  | Some d => ret d
  | None => raise (ValueError "last dimension of the input is undefined")
  end.

(** [tf.layers.dense(x, units, activation=, kernel_initializer=,
    bias_initializer=, name=, reuse=)] called inside scope [sc]. *)
Definition dense (sc : var_scope) (x : tensor) (units : nat)
    (act : option activation) (kernel_init bias_init : initializer)
    (name : string) (reuse : reuse_arg) : M tensor :=
  let layer := variable_scope name reuse sc in
  d <~ input_channels x;
  get_variable (scope_reuse layer) (scope_name layer +:+ "/kernel")
               [d; units] kernel_init true;;
  get_variable (scope_reuse layer) (scope_name layer +:+ "/bias")
               [units] bias_init true;;
  ret (Dense (scope_name layer) units act x).

(** [tf.layers.conv2d].  The kernel is sized by the static channel
    dimension of the input, which must be known.  The spatial arithmetic of
    TensorFlow is outside the model: a VALID kernel wider than a static
    spatial size makes the real call raise where this one returns, so a
    return of a convolution is only ever taken as a hypothesis, or concluded
    for stacks whose spatial sizes do not depend on the input. *)
Definition conv2d (sc : var_scope) (x : tensor) (filters kernel stride : nat)
    (pad : string) (act : option activation)
    (kernel_init bias_init : initializer) (name : string) (trainable : bool)
  : M tensor :=
  let layer := variable_scope name reuse_None sc in
  d <~ input_channels x;
  get_variable (scope_reuse layer) (scope_name layer +:+ "/kernel")
               [kernel; kernel; d; filters] kernel_init trainable;;
  get_variable (scope_reuse layer) (scope_name layer +:+ "/bias")
               [filters] bias_init trainable;;
  ret (Conv2D (scope_name layer) filters kernel stride pad act x).

(** [tf.layers.conv2d_transpose]. *)
Definition conv2d_transpose (sc : var_scope) (x : tensor)
    (filters kernel stride : nat) (pad : string) (act : option activation)
    (kernel_init bias_init : initializer) (name : string) (trainable : bool)
  : M tensor :=
  let layer := variable_scope name reuse_None sc in
  d <~ input_channels x;
  get_variable (scope_reuse layer) (scope_name layer +:+ "/kernel")
               [kernel; kernel; filters; d] kernel_init trainable;;
  get_variable (scope_reuse layer) (scope_name layer +:+ "/bias")
               [filters] bias_init trainable;;
  ret (Conv2DTranspose (scope_name layer) filters kernel stride pad act x).

(** [tf.layers.batch_normalization(x, name=, trainable=)]: scale and offset
    follow [trainable], the moving statistics are never trainable. *)
Definition batch_normalization (sc : var_scope) (x : tensor) (name : string)
    (trainable : bool) : M tensor :=
  let layer := variable_scope name reuse_None sc in
  d <~ input_channels x;
  get_variable (scope_reuse layer) (scope_name layer +:+ "/gamma")
               [d] default_initializer trainable;;
  get_variable (scope_reuse layer) (scope_name layer +:+ "/beta")
               [d] zeros_initializer trainable;;
  get_variable (scope_reuse layer) (scope_name layer +:+ "/moving_mean")
               [d] zeros_initializer false;;
  get_variable (scope_reuse layer) (scope_name layer +:+ "/moving_variance")
               [d] default_initializer false;;
  ret (BatchNormalization (scope_name layer) x).

(** [tf.random_normal(shape=...)]: every call adds a sampling op of its own
    to the graph. *)
Definition random_normal (shape : list nat) : M tensor :=
  fun s => (inr (RandomNormal (random_ops s) shape),
            State (variables s) (S (random_ops s)) (attrs s)).

(** [tf.zeros(shape)] needs a fully known shape. *)
Definition zeros (shape : list dim) : M tensor :=
  if forallb (fun d => bool_decide (is_Some d)) shape
  then ret (Zeros shape)
  else raise (ValueError "partially known shape").

(** [b, h, w, c = t.shape]. *)
Definition unpack4 (shape : list dim) : M (dim * dim * dim * dim) :=
  match shape with
  | [b; h; w; c] => ret (b, h, w, c)
  | _ => raise (ValueError "wrong number of values to unpack")
  end.

(** [tf.split(x, sizes, axis=1)]: one output per entry of [sizes].  The
    static width of [x] is not inferred here, so the size check of
    [tf.split] (the sizes must add up to a known width) is not represented;
    on values, [V.split] does refuse a width that differs from the sum. *)
Definition split (x : tensor) (sizes : list nat) : list tensor :=
  map (fun k => Split sizes k x) (seq 0 (length sizes)).

(** ** The model: [class Selfie2BitmojiModel] *)

Section Selfie2BitmojiModel.

(** [import model_architectures as archs], [self.args] and the two
    constants of [utils.bitmoji_api]. *)
Variable archs : archs_module.
Variable args : cli_args.
Variable BITMOJI_PARAM_SPLIT : list nat.
Variable BITMOJI_PARAM_SIZE : nat.

(** [t.shape]: the full static shape TensorFlow infers for a tensor.  The
    spatial arithmetic of the convolution kernels is outside the model. *)
Variable infer_shape : tensor -> list dim.

(** [xrange(len(arch['conv_filters']) - 1)]; the length arithmetic is done
    on integers, as in Python. *)
Definition stages (a : arch) : list nat :=
  xrange (Z.to_nat (Z.of_nat (length (conv_filters a)) - 1)).

(** [i == len(arch['conv_filters']) - 2]. *)
Definition is_last (a : arch) (i : nat) : bool :=
  bool_decide (Z.of_nat i = Z.of_nat (length (conv_filters a)) - 2)%Z.

(** [i < len(arch['conv_filters']) - 2]. *)
Definition is_interior (a : arch) (i : nat) : bool :=
  bool_decide (Z.of_nat i < Z.of_nat (length (conv_filters a)) - 2)%Z.

Definition _get_inputs : list tensor :=
  [Placeholder "Face_Images" (None :: map Some (IMG_DIMS archs));
   Placeholder "Bitmoji_Images" (None :: map Some (IMG_DIMS archs))].

Definition _face_encoder (imgs : tensor) : M tensor :=
  let sc := scope_name (variable_scope "Face_Encoder/Encode" reuse_AUTO root_scope) in
  let conv1 := Activation relu (VaeBatchNormal sc "e_bn1" (VaeConv2d sc "e_c1" 64 imgs)) in
  let conv2 := Activation relu (VaeBatchNormal sc "e_bn2" (VaeConv2d sc "e_c2" 128 conv1)) in
  let conv3 := Activation relu (VaeBatchNormal sc "e_bn3" (VaeConv2d sc "e_c3" 256 conv2)) in
  let conv3 := Reshape [None; Some (256 * 8 * 8)] conv3 in
  let fc1 := Activation relu (VaeBatchNormal sc "e_bn4" (VaeFullyConnect sc "e_f1" 1024 conv3)) in
  let z_mean := VaeFullyConnect sc "e_f2" (FACE_ENCODING_SIZE archs) fc1 in
  let z_sigma := VaeFullyConnect sc "e_f3" (FACE_ENCODING_SIZE archs) fc1 in
  noise <~ random_normal [batch_size args; FACE_ENCODING_SIZE archs];
  ret (Add z_mean (Mul (Sqrt (Exp z_sigma)) noise)).

Definition _generator (encodings : tensor) : M tensor :=
  let sc := variable_scope "Generator" reuse_AUTO root_scope in
  let arch := generator_model archs in
  preds <~ dense sc encodings (GENERATOR_INPUT_SIZE archs) (Some relu)
                 narrow_truncated_normal_initializer zeros_initializer
                 "FC" reuse_False;
  let preds := Reshape [None; Some 1; Some 1; Some (GENERATOR_INPUT_SIZE archs)] preds in
  for_range (stages arch) (fun i preds =>
    let activation := if is_last arch i then tanh else relu in
    filters <~ index (conv_filters arch) (i + 1);
    width <~ index (filter_widths arch) i;
    stride <~ index (strides arch) i;
    pad <~ index (padding arch) i;
    preds <~ conv2d_transpose sc preds filters width stride pad (Some activation)
               narrow_truncated_normal_initializer zeros_initializer
               ("Deconv_" +:+ str i) true;
    filters <~ index (conv_filters arch) (i + 1);
    preds <~ conv2d_transpose sc preds filters 1 1 "SAME" (Some relu)
               narrow_truncated_normal_initializer zeros_initializer
               ("Conv_" +:+ str i) true;
    if is_interior arch i then
      preds <~ batch_normalization sc preds ("BN_" +:+ str i) true;
      ret (Dropout (keep_prob args) preds)
    else ret preds) preds.

Definition _discriminator (imgs : tensor) : M tensor :=
  let sc := variable_scope "Discriminator" reuse_AUTO root_scope in
  let arch := avatar_synth_model archs in
  for_range (stages arch) (fun i preds =>
    let activation := if is_last arch i then sigmoid else leaky_relu in
    filters <~ index (conv_filters arch) (i + 1);
    width <~ index (filter_widths arch) i;
    stride <~ index (strides arch) i;
    pad <~ index (padding arch) i;
    preds <~ conv2d sc preds filters width stride pad (Some activation)
               narrow_truncated_normal_initializer zeros_initializer
               ("Conv_" +:+ str i) true;
    if is_interior arch i then
      preds <~ batch_normalization sc preds ("BN_" +:+ str i) true;
      ret (Dropout (keep_prob args) preds)
    else ret preds) imgs.

Definition _param_encoder (gen_faces : tensor) : M tensor :=
  let sc := variable_scope "Param_Encoder" reuse_AUTO root_scope in
  let arch := param_encoder_model archs in
  preds <~ for_range (stages arch) (fun i preds =>
    let activation := if is_last arch i then sigmoid else leaky_relu in
    filters <~ index (conv_filters arch) (i + 1);
    width <~ index (filter_widths arch) i;
    stride <~ index (strides arch) i;
    pad <~ index (padding arch) i;
    preds <~ conv2d sc preds filters width stride pad (Some activation)
               narrow_truncated_normal_initializer zeros_initializer
               ("Conv_" +:+ str i) true;
    if is_interior arch i then
      preds <~ batch_normalization sc preds ("BN_" +:+ str i) true;
      ret (Dropout (keep_prob args) preds)
    else ret preds) gen_faces;
  let preds := Flatten preds in
  let param_sets := split preds BITMOJI_PARAM_SPLIT in
  ret (Concat (map Softmax param_sets) 1).

Definition _avatar_synth (params : tensor) : M tensor :=
  let sc := variable_scope "Avatar_Synth" reuse_AUTO root_scope in
  let arch := avatar_synth_model archs in
  let preds := Reshape [None; Some 1; Some 1; Some BITMOJI_PARAM_SIZE] params in
  for_range (stages arch) (fun i preds =>
    let activation := if is_last arch i then tanh else relu in
    filters <~ index (conv_filters arch) (i + 1);
    width <~ index (filter_widths arch) i;
    stride <~ index (strides arch) i;
    pad <~ index (padding arch) i;
    preds <~ conv2d_transpose sc preds filters width stride pad (Some relu)
               default_initializer zeros_initializer
               ("Deconv_" +:+ str i) false;
    self_preds <~ getattr "preds";
    filters <~ index (conv_filters arch) (i + 1);
    refined <~ conv2d_transpose sc self_preds filters 1 1 "SAME" (Some activation)
               narrow_truncated_normal_initializer zeros_initializer
               ("Conv_" +:+ str i) false;
    setattr "preds" refined;;
    if is_interior arch i then
      batch_normalization sc preds ("BN_" +:+ str i) true
    else ret preds) preds.

(** *** Loss assembly (the [Losses] block of [_build_graph]) *)

Definition l_c (gen_faces avatar_synth_faces : tensor) : tensor :=
  ReduceMean (Square (Sub gen_faces avatar_synth_faces)).

Definition l_const (face_encodings gen_face_encodings : tensor) : tensor :=
  ReduceMean (Square (Sub face_encodings gen_face_encodings)).

Definition l_gan_d (d_preds_real : tensor) : tensor :=
  Add (ReduceMean (Log (Sub One d_preds_real)))
      (ReduceMean (Log d_preds_real)).

Definition l_gan_g (d_preds_fake : tensor) : tensor :=
  Add (ReduceMean (Log (Sub One d_preds_fake)))
      (ReduceMean (Log d_preds_fake)).

Definition l_tid (bitmoji_imgs regen_bitmoji : tensor) : tensor :=
  ReduceMean (Square (Sub bitmoji_imgs regen_bitmoji)).

Definition l_tv (gen_faces gen_faces_left_shift gen_faces_up_shift : tensor)
  : tensor :=
  ReduceMean (Sqrt (Add (Square (Sub gen_faces_left_shift gen_faces))
                        (Square (Sub gen_faces_up_shift gen_faces)))).

(** Lines 54-96 of [_build_graph]: the two shifted copies of the generated
    image and the six losses, stored on [self]. *)
Definition losses (bitmoji_imgs face_encodings gen_faces avatar_synth_faces
    d_preds_real d_preds_fake gen_face_encodings regen_bitmoji : tensor)
  : M unit :=
  shape <~ unpack4 (infer_shape gen_faces);
  let '(batch, height, width, channels) := shape in
  pad_column <~ zeros [batch; height; Some 1; channels];
  let gen_faces_left_shift := Concat [SliceFrom1 2 gen_faces; pad_column] 2 in
  pad_row <~ zeros [batch; Some 1; width; channels];
  let gen_faces_up_shift := Concat [SliceFrom1 1 gen_faces; pad_row] 1 in
  setattr "l_c" (l_c gen_faces avatar_synth_faces);;
  setattr "l_const" (l_const face_encodings gen_face_encodings);;
  setattr "l_gan_d" (l_gan_d d_preds_real);;
  setattr "l_gan_g" (l_gan_g d_preds_fake);;
  setattr "l_tid" (l_tid bitmoji_imgs regen_bitmoji);;
  setattr "l_tv" (l_tv gen_faces gen_faces_left_shift gen_faces_up_shift).

(** [_build_graph]; the [Summaries] block only logs the tensors built here
    and is left out. *)
Definition _build_graph (inputs : tensor * tensor) : M unit :=
  let '(face_imgs, bitmoji_imgs) := inputs in
  (* Pipeline from face image to Bitmoji *)
  face_encodings <~ _face_encoder face_imgs;
  gen_faces <~ _generator face_encodings;
  params <~ _param_encoder gen_faces;
  avatar_synth_faces <~ _avatar_synth params;
  (* GAN discriminator predictions *)
  d_preds_real <~ _discriminator bitmoji_imgs;
  d_preds_fake <~ _discriminator gen_faces;
  (* Other misc results for losses *)
  gen_face_encodings <~ _face_encoder gen_faces;
  bitmoji_encodings <~ _face_encoder bitmoji_imgs;
  regen_bitmoji <~ _generator bitmoji_encodings;
  losses bitmoji_imgs face_encodings gen_faces avatar_synth_faces
         d_preds_real d_preds_fake gen_face_encodings regen_bitmoji.

End Selfie2BitmojiModel.

(** The instance right after [__init__]: an empty graph, and no attribute but
    [args]. *)
Definition fresh : state := State ∅ 0 ∅.


(** ** Value-level reading of the numeric ops, over the real numbers

    Tensors of rank 2 are lists of rows, tensors of rank 4 are nested
    (batch, height, width, channel) lists.  Floating point is idealised to
    [R]. *)
Module V.
Local Open Scope R_scope.

Abbreviation matrix := (list (list R)).
Abbreviation tensor4 := (list (list (list (list R)))).

Definition rsum (v : list R) : R := foldr Rplus 0 v.

(** [tf.nn.softmax]: along the last axis. *)
Definition softmax_row (v : list R) : list R :=
  map (fun x => exp x / rsum (map exp v)) v.

Definition softmax (m : matrix) : matrix := map softmax_row m.

(** The [k]-th output of [tf.split(m, sizes, axis=1)], on one row. *)
Definition segment (sizes : list nat) (k : nat) (row : list R) : list R :=
  take (sizes !!! k) (drop (sum_list (take k sizes)) row).

(** [tf.split(m, sizes, axis=1)]: the sizes must add up to the width. *)
Definition split (m : matrix) (sizes : list nat) : option (list matrix) :=
  if forallb (fun row => bool_decide (length row = sum_list sizes)) m
  then Some (map (fun k => map (segment sizes k) m) (seq 0 (length sizes)))
  else None.

(** [tf.concat(ms, 1)]: row by row; an empty list of tensors is refused. *)
Definition concat1 (ms : list matrix) : option matrix :=
  match ms with
  | [] => None
  | m0 :: _ =>
      Some (map (fun b => concat (map (fun m => default [] (m !! b)) ms))
                (seq 0 (length m0)))
  end.

(** Lines 284-288 of [_param_encoder] on the flattened activations. *)
Definition param_head (BITMOJI_PARAM_SPLIT : list nat) (flat : matrix)
  : option matrix :=
  param_sets ← split flat BITMOJI_PARAM_SPLIT;
  concat1 (map softmax param_sets).

(** Broadcasting of one axis: equal lengths, or one of them is 1. *)
Definition broadcast_len (a b : nat) : option nat :=
  if bool_decide (a = b) then Some a
  else if bool_decide (a = 1%nat) then Some b
  else if bool_decide (b = 1%nat) then Some a
  else None.

Definition stretch {A} (n : nat) (l : list A) : list A :=
  match l with
  | [x] => replicate n x
  | _ => l
  end.

Definition broadcast {A B C} (f : A -> B -> option C) (a : list A) (b : list B)
  : option (list C) :=
  n ← broadcast_len (length a) (length b);
  mapM (fun p => f p.1 p.2) (zip (stretch n a) (stretch n b)).

(** An elementwise binary op on two rank-2 tensors. *)
Definition elementwise2 (f : R -> R -> R) (a b : matrix) : option matrix :=
  broadcast (broadcast (fun x y => Some (f x y))) a b.

(** Line 142 of [_face_encoder]:
    [tf.add(z_mean, tf.sqrt(tf.exp(z_sigma)) * noise)]. *)
Definition z_x (z_mean z_sigma noise : matrix) : option matrix :=
  scaled ← elementwise2 Rmult (map (map (fun x => sqrt (exp x))) z_sigma) noise;
  elementwise2 Rplus z_mean scaled.

(** One sample of the encoding. *)
Definition z_x_row (mean sigma noise : list R) : list R :=
  zip_with (fun m sn => m + sn)
           mean (zip_with (fun s n => sqrt (exp s) * n) sigma noise).

Definition map4 (f : R -> R) (t : tensor4) : tensor4 :=
  map (map (map (map f))) t.

Definition zip4 (f : R -> R -> R) (a b : tensor4) : tensor4 :=
  zip_with (zip_with (zip_with (zip_with f))) a b.

Definition zeros (b h w c : nat) : tensor4 :=
  replicate b (replicate h (replicate w (replicate c 0))).

(** [t.shape] of a rectangular rank-4 tensor. *)
Definition shape (t : tensor4) : nat * nat * nat * nat :=
  (length t, length (hd [] t), length (hd [] (hd [] t)),
   length (hd [] (hd [] (hd [] t)))).

Definition reduce_mean (t : tensor4) : R :=
  let flat := concat (concat (concat t)) in
  rsum flat / INR (length flat).

(** [tf.concat([gen_faces[:, :, 1:, :], tf.zeros((b, h, 1, c))], axis=2)]. *)
Definition gen_faces_left_shift (gen_faces : tensor4) : tensor4 :=
  let '(b, h, w, c) := shape gen_faces in
  zip_with (zip_with app) (map (map (drop 1)) gen_faces) (zeros b h 1 c).

(** [tf.concat([gen_faces[:, 1:, :, :], tf.zeros((b, 1, w, c))], axis=1)]. *)
Definition gen_faces_up_shift (gen_faces : tensor4) : tensor4 :=
  let '(b, h, w, c) := shape gen_faces in
  zip_with app (map (drop 1) gen_faces) (zeros b 1 w c).

(** [self.l_tv]. *)
Definition l_tv (gen_faces : tensor4) : R :=
  reduce_mean
    (map4 sqrt
       (zip4 Rplus
          (map4 Rsqr (zip4 Rminus (gen_faces_left_shift gen_faces) gen_faces))
          (map4 Rsqr (zip4 Rminus (gen_faces_up_shift gen_faces) gen_faces)))).






End V.

(** ** Reading a built tensor back *)

(** What stage [i] of an architecture feeds to its (de)convolution:
    [(conv_filters[i + 1], filter_widths[i], strides[i], padding[i])]. *)
Definition stage_descriptor (a : arch) (i : nat) : option (nat * nat * nat * string) :=
  f ← conv_filters a !! (i + 1);
  w ← filter_widths a !! i;
  s ← strides a !! i;
  p ← padding a !! i;
  Some (f, w, s, p).

Definition descriptor (a : arch) : list (nat * nat * nat * string) :=
  omap (stage_descriptor a) (stages a).

(** The hyper-parameters of the (de)convolutions met from a tensor down its
    input chain, outermost first. *)
Fixpoint stage_params (t : tensor) : list (nat * nat * nat * string) :=
  match t with
  | Conv2D _ f k s p _ x | Conv2DTranspose _ f k s p _ x =>
      (f, k, s, p) :: stage_params x
  | BatchNormalization _ x | Dropout _ x => stage_params x
  | _ => []
  end.

(** The activations applied from a tensor down its input chain, outermost
    first, up to the first node that is not a layer. *)
Fixpoint activations (t : tensor) : list activation :=
  match t with
  | Conv2D _ _ _ _ _ act x | Conv2DTranspose _ _ _ _ _ act x | Dense _ _ act x =>
      match act with
      | Some a => a :: activations x
      | None => activations x
      end
  | Activation a x => a :: activations x
  | BatchNormalization _ x | Dropout _ x | Reshape _ x => activations x
  | _ => []
  end.


(** The variables of one sub-network, by name prefix. *)
Definition scope_variables (prefix : string) (s : state) : gmap string variable :=
  filter (fun kv => String.prefix prefix kv.1 = true) (variables s).

(** A computation leaves the instance dictionary / the sampling ops alone. *)
Definition keeps_attrs {A} (m : M A) : Prop :=
  forall s, attrs (m s).2 = attrs s.

Definition keeps_random_ops {A} (m : M A) : Prop :=
  forall s, random_ops (m s).2 = random_ops s.

(** A computation creates or changes no variable under a name prefix. *)
Definition keeps_scope (prefix : string) {A} (m : M A) : Prop :=
  forall s name, String.prefix prefix name = true ->
    variables (m s).2 !! name = variables s !! name.

(** The sampling op inside a face encoding [mean + scale * noise]. *)
Definition sampled_noise (z : tensor) : option tensor :=
  match z with
  | Add _ (Mul _ noise) => Some noise
  | _ => None
  end.


(** A computation never drops or overwrites a variable of the graph. *)
Definition keeps_existing {A} (m : M A) : Prop :=
  forall s name v, variables s !! name = Some v ->
    variables (m s).2 !! name = Some v.

(** ** The two numeric statements of the specification that the code
       does not meet, as the specification words them *)

(** A rank-2 tensor of shape [(n, d)]. *)
Definition has_shape (m : V.matrix) (n d : nat) : Prop :=
  length m = n /\ Forall (fun row => length row = d) m.

(** "For every valid image batch of any batch size, the face encoder
    produces an output of fixed per-sample dimension": whatever the
    configured [batch_size] that shapes the noise, a batch of [n] samples
    gets an encoding of shape [(n, D)]. *)
Definition face_encoder_accepts_any_batch_size : Prop :=
  forall (batch_size D n : nat) (z_mean z_sigma noise : V.matrix),
    has_shape z_mean n D -> has_shape z_sigma n D ->
    has_shape noise batch_size D ->
    exists out, V.z_x z_mean z_sigma noise = Some out /\ has_shape out n D.




(** ** Read-back predicates for the remaining properties *)

(** A computation creates or changes variables under one name prefix only. *)
Definition stays_inside (prefix : string) {A} (m : M A) : Prop :=
  forall s name, String.prefix prefix name = false ->
    variables (m s).2 !! name = variables s !! name.

(** Every variable of [s] is a variable of [S], unchanged. *)
Definition included (s S : state) : Prop :=
  forall name v, variables s !! name = Some v -> variables S !! name = Some v.

(** Whenever [m1] runs to the end, [m2] runs to the end in any graph that
    holds the variables [m1] left, without changing that graph, and the two
    results are related by [R]. *)
Definition replays {A} (R : A -> A -> Prop) (m1 m2 : M A) : Prop :=
  forall s a1 s1, m1 s = (inr a1, s1) ->
    forall S, included s1 S -> exists a2, m2 S = (inr a2, S) /\ R a1 a2.

(** Two tensors with the same static channel dimension. *)
Definition same_channels (t1 t2 : tensor) : Prop := last_dim t1 = last_dim t2.

(** The ops met from a tensor down its input chain, outermost first. *)
Inductive op :=
| conv_op (act : option activation)
| deconv_op (act : option activation)
| dense_op (act : option activation)
| batch_norm_op
| dropout_op.

Fixpoint ops (t : tensor) : list op :=
  match t with
  | Conv2D _ _ _ _ _ act x => conv_op act :: ops x
  | Conv2DTranspose _ _ _ _ _ act x => deconv_op act :: ops x
  | Dense _ _ act x => dense_op act :: ops x
  | BatchNormalization _ x => batch_norm_op :: ops x
  | Dropout _ x => dropout_op :: ops x
  | _ => []
  end.

(** The per-stage lists of an architecture have an entry for every stage. *)
Definition covers_every_stage (a : arch) : Prop :=
  length (conv_filters a) - 1 <= length (filter_widths a) /\
  length (conv_filters a) - 1 <= length (strides a) /\
  length (conv_filters a) - 1 <= length (padding a).

(** No variable under a name prefix is trainable. *)
Definition frozen (prefix : string) (s : state) : Prop :=
  forall name v, String.prefix prefix name = true ->
    variables s !! name = Some v -> var_trainable v = false.

Definition keeps_frozen (prefix : string) {A} (m : M A) : Prop :=
  forall s, frozen prefix s -> frozen prefix (m s).2.

(** The six attributes the loss block assigns. *)
Definition loss_names : list string :=
  ["l_c"; "l_const"; "l_gan_d"; "l_gan_g"; "l_tid"; "l_tv"].

(** A computation assigns no attribute of [self] outside [names]. *)
Definition assigns_only (names : list string) {A} (m : M A) : Prop :=
  forall s name, name ∉ names -> attrs (m s).2 !! name = attrs s !! name.



(** The value of a rank-2 graph node over the reals.  [leaf] gives the
    values of the nodes that are not interpreted here: placeholders, layers
    with weights, sampling ops. *)
Fixpoint denote (leaf : tensor -> option V.matrix) (t : tensor)
  : option V.matrix :=
  match t with
  | Add a b =>
      x ← denote leaf a; y ← denote leaf b; V.elementwise2 Rplus x y
  | Mul a b =>
      x ← denote leaf a; y ← denote leaf b; V.elementwise2 Rmult x y
  | Sqrt x => map (map sqrt) <$> denote leaf x
  | Exp x => map (map exp) <$> denote leaf x
  | Softmax x => V.softmax <$> denote leaf x
  | Split sizes k x =>
      m ← denote leaf x; parts ← V.split m sizes; parts !! k
  | Concat xs 1 => ms ← mapM (denote leaf) xs; V.concat1 ms
  | _ => leaf t
  end.

(** "Noise is independently sampled per batch element": in the encoding of
    a batch, two different samples are combined with two different rows of
    the sampled noise. *)
Definition noise_is_drawn_per_batch_element : Prop :=
  forall (batch_size D n : nat) (z_mean z_sigma noise out : V.matrix),
    has_shape z_mean n D -> has_shape z_sigma n D ->
    has_shape noise batch_size D ->
    V.z_x z_mean z_sigma noise = Some out ->
    forall b1 b2 mean1 sigma1 mean2 sigma2,
      b1 <> b2 ->
      z_mean !! b1 = Some mean1 -> z_sigma !! b1 = Some sigma1 ->
      z_mean !! b2 = Some mean2 -> z_sigma !! b2 = Some sigma2 ->
      exists r1 r2 eps1 eps2,
        r1 <> r2 /\
        noise !! r1 = Some eps1 /\ noise !! r2 = Some eps2 /\
        out !! b1 = Some (V.z_x_row mean1 sigma1 eps1) /\
        out !! b2 = Some (V.z_x_row mean2 sigma2 eps2).

(** ** A small configuration to run the model on *)
Module Example.

Definition generator_stack : arch :=
  Arch [8; 4; 3] [4; 4] [1; 2] ["VALID"; "SAME"].
Definition synth_stack : arch :=
  Arch [8; 4; 3] [4; 4] [1; 2] ["VALID"; "SAME"].
Definition encoder_stack : arch :=
  Arch [3; 4; 8] [4; 4] [2; 1] ["SAME"; "VALID"].

Definition archs : archs_module :=
  Archs [8; 8; 3] 16 8 generator_stack synth_stack encoder_stack.
Definition args : cli_args := Args 4 (1 # 2) (1 # 100).
Definition BITMOJI_PARAM_SPLIT : list nat := [3; 5].
Definition BITMOJI_PARAM_SIZE : nat := 8.
Definition infer_shape (t : tensor) : list dim :=
  [Some 4; Some 8; Some 8; Some 3].

Definition face_imgs : tensor :=
  Placeholder "Face_Images" [None; Some 8; Some 8; Some 3].
Definition bitmoji_imgs : tensor :=
  Placeholder "Bitmoji_Images" [None; Some 8; Some 8; Some 3].
Definition params : tensor :=
  Placeholder "Params" [None; Some 8].
Definition encodings : tensor :=
  Placeholder "Encodings" [None; Some 16].
Definition wide_encodings : tensor :=
  Placeholder "Wide_Encodings" [None; Some 32].

(** An instance on which somebody assigned [preds] from outside. *)
Definition with_preds : state :=
  State ∅ 0 {[ "preds" := Reshape [None; Some 1; Some 1; Some 8] params ]}.

(** The result of a run that did not raise. *)
Definition result (r : (exn + tensor) * state) : tensor :=
  match r.1 with
  | inr t => t
  | inl _ => One
  end.

(** The first three calls of [_build_graph], from the fresh instance. *)
Definition face_encodings : tensor :=
  result (_face_encoder archs args face_imgs fresh).
Definition s1 : state := (_face_encoder archs args face_imgs fresh).2.
Definition gen_faces : tensor := result (_generator archs args face_encodings s1).
Definition s2 : state := (_generator archs args face_encodings s1).2.
Definition predicted : tensor :=
  result (_param_encoder archs args BITMOJI_PARAM_SPLIT gen_faces s2).
Definition s3 : state :=
  (_param_encoder archs args BITMOJI_PARAM_SPLIT gen_faces s2).2.

End Example.

(** ** Later calls on the same graph, and two degenerate configurations
       to run single properties on *)
Module Rerun.

(** The first call of the discriminator, after the first three networks. *)
Definition d_preds_real : tensor :=
  Example.result (_discriminator Example.archs Example.args
                                 Example.bitmoji_imgs Example.s3).
Definition s4 : state :=
  (_discriminator Example.archs Example.args Example.bitmoji_imgs Example.s3).2.

(** The encoding of the avatar batch, the input of the second generator
    call. *)
Definition bitmoji_encodings : tensor :=
  Example.result (_face_encoder Example.archs Example.args
                                Example.bitmoji_imgs Example.s2).



End Rerun.

(** * Properties *)

(** ** The construction monad *)

Lemma bind_inl {A B} (m : M A) (k : A -> M B) s e s' :
  m s = (inl e, s') -> bind m k s = (inl e, s').
Proof. intros H. unfold bind. by rewrite H. Qed.

Lemma bind_inr {A B} (m : M A) (k : A -> M B) s a s' :
  m s = (inr a, s') -> bind m k s = k a s'.
Proof. intros H. unfold bind. by rewrite H. Qed.

Lemma bind_inv {A B} (m : M A) (k : A -> M B) s b s' :
  bind m k s = (inr b, s') ->
  exists a s1, m s = (inr a, s1) /\ k a s1 = (inr b, s').
Proof.
  unfold bind. destruct (m s) as [[e|a] s1]; [discriminate|]. eauto.
Qed.

Lemma bind_cases {A B} (m : M A) (k : A -> M B) s :
  (exists e s1, m s = (inl e, s1) /\ bind m k s = (inl e, s1)) \/
  (exists a s1, m s = (inr a, s1) /\ bind m k s = k a s1).
Proof.
  unfold bind. destruct (m s) as [[e|a] s1]; eauto.
Qed.

(** Frame rules for the two parts of the state most layers never touch. *)
Section Frames.

Lemma keeps_attrs_ret {A} (a : A) : keeps_attrs (ret a).
Proof. done. Qed.

Lemma keeps_attrs_raise {A} e : keeps_attrs (@raise A e).
Proof. done. Qed.

Lemma keeps_attrs_bind {A B} (m : M A) (k : A -> M B) :
  keeps_attrs m -> (forall a, keeps_attrs (k a)) -> keeps_attrs (bind m k).
Proof.
  intros Hm Hk s. unfold bind. specialize (Hm s).
  destruct (m s) as [[e|a] s1]; simpl in *; [done|].
  rewrite Hk. done.
Qed.

Lemma keeps_attrs_for_range {A} idxs (body : nat -> A -> M A) a :
  (forall i x, keeps_attrs (body i x)) -> keeps_attrs (for_range idxs body a).
Proof.
  intros Hb. revert a. induction idxs as [|i rest IH]; intros a; simpl.
  - apply keeps_attrs_ret.
  - apply keeps_attrs_bind; auto.
Qed.

Lemma keeps_attrs_index {A} (l : list A) i : keeps_attrs (index l i).
Proof. unfold index. destruct (l !! i); done. Qed.

Lemma keeps_attrs_get_variable mode name shape init tr :
  keeps_attrs (get_variable mode name shape init tr).
Proof.
  intros s. unfold get_variable.
  destruct (variables s !! name); destruct mode; simpl; try done;
    case_decide; done.
Qed.

Lemma keeps_attrs_input_channels x : keeps_attrs (input_channels x).
Proof. unfold input_channels. destruct (last_dim x); done. Qed.

Lemma keeps_random_ops_ret {A} (a : A) : keeps_random_ops (ret a).
Proof. done. Qed.

Lemma keeps_random_ops_raise {A} e : keeps_random_ops (@raise A e).
Proof. done. Qed.

Lemma keeps_random_ops_bind {A B} (m : M A) (k : A -> M B) :
  keeps_random_ops m -> (forall a, keeps_random_ops (k a)) ->
  keeps_random_ops (bind m k).
Proof.
  intros Hm Hk s. unfold bind. specialize (Hm s).
  destruct (m s) as [[e|a] s1]; simpl in *; [done|].
  rewrite Hk. done.
Qed.

Lemma keeps_random_ops_for_range {A} idxs (body : nat -> A -> M A) a :
  (forall i x, keeps_random_ops (body i x)) ->
  keeps_random_ops (for_range idxs body a).
Proof.
  intros Hb. revert a. induction idxs as [|i rest IH]; intros a; simpl.
  - apply keeps_random_ops_ret.
  - apply keeps_random_ops_bind; auto.
Qed.

Lemma keeps_random_ops_index {A} (l : list A) i : keeps_random_ops (index l i).
Proof. unfold index. destruct (l !! i); done. Qed.

Lemma keeps_random_ops_get_variable mode name shape init tr :
  keeps_random_ops (get_variable mode name shape init tr).
Proof.
  intros s. unfold get_variable.
  destruct (variables s !! name); destruct mode; simpl; try done;
    case_decide; done.
Qed.

Lemma keeps_random_ops_input_channels x : keeps_random_ops (input_channels x).
Proof. unfold input_channels. destruct (last_dim x); done. Qed.

Lemma keeps_random_ops_getattr n : keeps_random_ops (getattr n).
Proof. intros s. unfold getattr. destruct (attrs s !! n); done. Qed.

Lemma keeps_random_ops_setattr n t : keeps_random_ops (setattr n t).
Proof. done. Qed.
End Frames.

Create HintDb frames.
#[local] Hint Resolve keeps_attrs_ret keeps_attrs_raise keeps_attrs_index
  keeps_attrs_get_variable keeps_attrs_input_channels
  keeps_random_ops_ret keeps_random_ops_raise keeps_random_ops_index
  keeps_random_ops_get_variable keeps_random_ops_input_channels
  keeps_random_ops_getattr keeps_random_ops_setattr : frames.

(** Splits a frame goal along the binds, loops and branches of the code. *)
Ltac frame :=
  repeat first
    [ progress auto with frames
    | apply keeps_attrs_bind; [|intros ?]
    | apply keeps_random_ops_bind; [|intros ?]
    | apply keeps_attrs_for_range; intros ? ?
    | apply keeps_random_ops_for_range; intros ? ?
    | match goal with
      | |- context [if ?b then _ else _] => destruct b
      end ].

Section LayerFrames.
Variables (sc : var_scope) (x : tensor).

Lemma keeps_attrs_dense u act ki bi name reuse :
  keeps_attrs (dense sc x u act ki bi name reuse).
Proof. unfold dense. frame. Qed.

Lemma keeps_attrs_conv2d f k st p act ki bi name tr :
  keeps_attrs (conv2d sc x f k st p act ki bi name tr).
Proof. unfold conv2d. frame. Qed.

Lemma keeps_attrs_conv2d_transpose f k st p act ki bi name tr :
  keeps_attrs (conv2d_transpose sc x f k st p act ki bi name tr).
Proof. unfold conv2d_transpose. frame. Qed.

Lemma keeps_attrs_batch_normalization name tr :
  keeps_attrs (batch_normalization sc x name tr).
Proof. unfold batch_normalization. frame. Qed.

Lemma keeps_random_ops_dense u act ki bi name reuse :
  keeps_random_ops (dense sc x u act ki bi name reuse).
Proof. unfold dense. frame. Qed.

Lemma keeps_random_ops_conv2d f k st p act ki bi name tr :
  keeps_random_ops (conv2d sc x f k st p act ki bi name tr).
Proof. unfold conv2d. frame. Qed.

Lemma keeps_random_ops_conv2d_transpose f k st p act ki bi name tr :
  keeps_random_ops (conv2d_transpose sc x f k st p act ki bi name tr).
Proof. unfold conv2d_transpose. frame. Qed.

Lemma keeps_random_ops_batch_normalization name tr :
  keeps_random_ops (batch_normalization sc x name tr).
Proof. unfold batch_normalization. frame. Qed.
End LayerFrames.

#[local] Hint Resolve keeps_attrs_dense keeps_attrs_conv2d
  keeps_attrs_conv2d_transpose keeps_attrs_batch_normalization
  keeps_random_ops_dense keeps_random_ops_conv2d
  keeps_random_ops_conv2d_transpose keeps_random_ops_batch_normalization
  : frames.

Section NetworkFrames.
Variables (archs : archs_module) (args : cli_args).
Variables (BITMOJI_PARAM_SPLIT : list nat) (BITMOJI_PARAM_SIZE : nat).

Lemma keeps_attrs_face_encoder imgs :
  keeps_attrs (_face_encoder archs args imgs).
Proof. intros s. done. Qed.

Lemma keeps_attrs_generator encodings :
  keeps_attrs (_generator archs args encodings).
Proof. unfold _generator. frame. Qed.

Lemma keeps_attrs_discriminator imgs :
  keeps_attrs (_discriminator archs args imgs).
Proof. unfold _discriminator. frame. Qed.

Lemma keeps_attrs_param_encoder gen_faces :
  keeps_attrs (_param_encoder archs args BITMOJI_PARAM_SPLIT gen_faces).
Proof. unfold _param_encoder. frame. Qed.

Lemma keeps_random_ops_generator encodings :
  keeps_random_ops (_generator archs args encodings).
Proof. unfold _generator. frame. Qed.

Lemma keeps_random_ops_discriminator imgs :
  keeps_random_ops (_discriminator archs args imgs).
Proof. unfold _discriminator. frame. Qed.

Lemma keeps_random_ops_param_encoder gen_faces :
  keeps_random_ops (_param_encoder archs args BITMOJI_PARAM_SPLIT gen_faces).
Proof. unfold _param_encoder. frame. Qed.

Lemma keeps_random_ops_avatar_synth params :
  keeps_random_ops (_avatar_synth archs BITMOJI_PARAM_SIZE params).
Proof. unfold _avatar_synth. frame. Qed.
End NetworkFrames.

(** ** The loop bounds *)

Lemma stages_seq (a : arch) : stages a = seq 0 (length (conv_filters a) - 1).
Proof.
  unfold stages, xrange. f_equal. lia.
Qed.

Lemma stages_first (a : arch) :
  2 <= length (conv_filters a) ->
  stages a = 0 :: seq 1 (length (conv_filters a) - 2).
Proof.
  intros H. rewrite stages_seq.
  replace (length (conv_filters a) - 1) with (S (length (conv_filters a) - 2)) by lia.
  done.
Qed.

(** ** The avatar synthesizer reads an attribute nobody assigned *)

(** One more step of a computation that either raised already, or goes on
    from a state with the same attributes [dict]. *)
Ltac step_keeping_attrs Hs :=
  match goal with
  | |- context [bind ?m ?k ?s] =>
      let e := fresh "e" in
      let a := fresh "a" in
      let s1 := fresh "s" in
      let Hm := fresh "Hm" in
      let Hk := fresh "Hk" in
      assert (Hk : keeps_attrs m) by auto with frames;
      specialize (Hk s);
      destruct (bind_cases m k s) as [(e & s1 & Hm & ->)|(a & s1 & Hm & ->)];
      rewrite Hm in Hk; simpl in Hk; rewrite Hs in Hk; clear Hs Hm;
      [ eexists; split; [reflexivity | exact Hk]
      | rename Hk into Hs; cbv beta ]
  end.

Section AvatarSynthFailure.
Variables (archs : archs_module) (args : cli_args).
Variables (BITMOJI_PARAM_SPLIT : list nat) (BITMOJI_PARAM_SIZE : nat).
Variable infer_shape : tensor -> list dim.

Lemma avatar_synth_raises params s :
  2 <= length (conv_filters (avatar_synth_model archs)) ->
  attrs s !! "preds" = None ->
  exists e,
    (_avatar_synth archs BITMOJI_PARAM_SIZE params s).1 = inl e /\
    attrs (_avatar_synth archs BITMOJI_PARAM_SIZE params s).2 = attrs s.
Proof.
  intros Hlen Hattrs. unfold _avatar_synth.
  rewrite (stages_first _ Hlen). cbn [for_range].
  remember (attrs s) as dict eqn:Hs. symmetry in Hs.
  match goal with
  | |- context [bind ?body ?k s] => set (first := body); set (rest := k)
  end.
  assert (Hfirst : exists e, (first s).1 = inl e /\ attrs (first s).2 = dict).
  { subst first. do 5 step_keeping_attrs Hs.
    rewrite (bind_inl _ _ _ (AttributeError "preds") s4).
    - eexists. split; [reflexivity|done].
    - unfold getattr. by rewrite Hs, Hattrs. }
  destruct Hfirst as (e & He & Hk).
  destruct (first s) as [[e'|a] s1] eqn:Hf; simpl in He; [|discriminate].
  rewrite (bind_inl _ _ _ _ _ Hf). exists e'. simpl in *. split; congruence.
Qed.
End AvatarSynthFailure.

(** ** Sub-networks stay inside their own variable scope *)

Lemma keeps_scope_ret prefix {A} (a : A) : keeps_scope prefix (ret a).
Proof. done. Qed.

Lemma keeps_scope_raise prefix {A} e : keeps_scope prefix (@raise A e).
Proof. done. Qed.

Lemma keeps_scope_bind prefix {A B} (m : M A) (k : A -> M B) :
  keeps_scope prefix m -> (forall a, keeps_scope prefix (k a)) ->
  keeps_scope prefix (bind m k).
Proof.
  intros Hm Hk s name Hp. unfold bind. specialize (Hm s name Hp).
  destruct (m s) as [[e|a] s1]; simpl in *; [done|].
  rewrite Hk; done.
Qed.

Lemma keeps_scope_for_range prefix {A} idxs (body : nat -> A -> M A) a :
  (forall i x, keeps_scope prefix (body i x)) ->
  keeps_scope prefix (for_range idxs body a).
Proof.
  intros Hb. revert a. induction idxs as [|i rest IH]; intros a; simpl.
  - apply keeps_scope_ret.
  - apply keeps_scope_bind; auto.
Qed.

Lemma keeps_scope_index prefix {A} (l : list A) i : keeps_scope prefix (index l i).
Proof. unfold index. destruct (l !! i); done. Qed.

Lemma keeps_scope_input_channels prefix x : keeps_scope prefix (input_channels x).
Proof. unfold input_channels. destruct (last_dim x); done. Qed.

Lemma keeps_scope_random_normal prefix shape :
  keeps_scope prefix (random_normal shape).
Proof. done. Qed.

Lemma keeps_scope_get_variable prefix mode name shape init tr :
  String.prefix prefix name = false ->
  keeps_scope prefix (get_variable mode name shape init tr).
Proof.
  intros Hname s name' Hp. unfold get_variable.
  destruct (variables s !! name); destruct mode; simpl; try done;
    try (case_decide; done).
  all: apply lookup_insert_ne; intros ->; congruence.
Qed.

#[local] Hint Resolve keeps_scope_ret keeps_scope_raise keeps_scope_index
  keeps_scope_input_channels keeps_scope_random_normal : frames.

(** Splits a scope goal along the code, down to the variable names. *)
Ltac frame_scope :=
  unfold dense, conv2d, conv2d_transpose, batch_normalization;
  repeat first
    [ progress auto with frames
    | apply keeps_scope_bind; [|intros ?]
    | apply keeps_scope_for_range; intros ? ?
    | apply keeps_scope_get_variable; reflexivity
    | match goal with
      | |- context [if ?b then _ else _] => destruct b
      end ].

Section NetworkScopes.
Variables (archs : archs_module) (args : cli_args).
Variables (BITMOJI_PARAM_SPLIT : list nat) (BITMOJI_PARAM_SIZE : nat).

Lemma face_encoder_keeps_avatar_synth imgs :
  keeps_scope "Avatar_Synth" (_face_encoder archs args imgs).
Proof. unfold _face_encoder. frame_scope. Qed.

Lemma generator_keeps_avatar_synth encodings :
  keeps_scope "Avatar_Synth" (_generator archs args encodings).
Proof. unfold _generator. frame_scope. Qed.

Lemma discriminator_keeps_avatar_synth imgs :
  keeps_scope "Avatar_Synth" (_discriminator archs args imgs).
Proof. unfold _discriminator. frame_scope. Qed.

Lemma param_encoder_keeps_avatar_synth gen_faces :
  keeps_scope "Avatar_Synth" (_param_encoder archs args BITMOJI_PARAM_SPLIT gen_faces).
Proof. unfold _param_encoder. frame_scope. Qed.
End NetworkScopes.

(** ** Running single steps *)

Lemma index_Some {A} (l : list A) i a s :
  l !! i = Some a -> index l i s = (inr a, s).
Proof. intros H. unfold index. by rewrite H. Qed.

Lemma get_variable_fresh name shape init tr s :
  variables s !! name = None ->
  get_variable AUTO_REUSE name shape init tr s =
    (inr tt, State (<[name := Var shape tr init]> (variables s))
                   (random_ops s) (attrs s)).
Proof. intros H. unfold get_variable. by rewrite H. Qed.

Lemma get_variable_shared name shape init tr s v :
  variables s !! name = Some v -> var_shape v = shape ->
  get_variable AUTO_REUSE name shape init tr s = (inr tt, s).
Proof.
  intros H Hshape. unfold get_variable. rewrite H.
  by rewrite decide_True.
Qed.

Lemma conv2d_transpose_fresh sc x d f k st p act ki bi name tr s :
  scope_reuse sc = AUTO_REUSE ->
  last_dim x = Some d ->
  variables s !! (scoped (scope_name sc) name +:+ "/kernel") = None ->
  variables s !! (scoped (scope_name sc) name +:+ "/bias") = None ->
  exists s', conv2d_transpose sc x f k st p act ki bi name tr s =
    (inr (Conv2DTranspose (scoped (scope_name sc) name) f k st p act x), s') /\
    attrs s' = attrs s /\ random_ops s' = random_ops s.
Proof.
  intros Hsc Hx Hk Hb. unfold conv2d_transpose, input_channels. rewrite Hx.
  simpl. rewrite Hsc.
  rewrite (bind_inr _ _ _ d s) by done.
  rewrite (bind_inr _ _ _ _ _ (get_variable_fresh _ _ _ _ _ Hk)).
  erewrite bind_inr; cycle 1.
  { apply get_variable_fresh. simpl. rewrite lookup_insert_ne; [done|].
    intros Heq. apply (inj _) in Heq. discriminate. }
  eexists. split; [reflexivity|]. done.
Qed.

Lemma stage_descriptor_length a i d :
  stage_descriptor a i = Some d -> i + 2 <= length (conv_filters a).
Proof.
  unfold stage_descriptor. intros H.
  destruct (conv_filters a !! (i + 1)) eqn:Hf; [|done].
  apply lookup_lt_Some in Hf. lia.
Qed.

#[local] Hint Resolve keeps_attrs_face_encoder keeps_attrs_generator
  keeps_attrs_discriminator keeps_attrs_param_encoder : frames.

Section BuildGraphFailure.
Variables (archs : archs_module) (args : cli_args).
Variables (BITMOJI_PARAM_SPLIT : list nat) (BITMOJI_PARAM_SIZE : nat).
Variable infer_shape : tensor -> list dim.

Lemma avatar_synth_attribute_error params s d :
  stage_descriptor (avatar_synth_model archs) 0 = Some d ->
  attrs s !! "preds" = None ->
  (forall name, String.prefix "Avatar_Synth" name = true ->
                variables s !! name = None) ->
  (_avatar_synth archs BITMOJI_PARAM_SIZE params s).1
    = inl (AttributeError "preds").
Proof.
  intros Hd Hattrs Hvars.
  pose proof (stage_descriptor_length _ _ _ Hd) as Hlen.
  unfold stage_descriptor in Hd. simpl in Hd.
  destruct (conv_filters (avatar_synth_model archs) !! 1) as [f|] eqn:Hf; [|done].
  destruct (filter_widths (avatar_synth_model archs) !! 0) as [w|] eqn:Hw; [|done].
  destruct (strides (avatar_synth_model archs) !! 0) as [st|] eqn:Hst; [|done].
  destruct (padding (avatar_synth_model archs) !! 0) as [p|] eqn:Hp; [|done].
  unfold _avatar_synth. rewrite (stages_first _ Hlen). cbn [for_range].
  destruct (conv2d_transpose_fresh
              (variable_scope "Avatar_Synth" reuse_AUTO root_scope)
              (Reshape [None; Some 1; Some 1; Some BITMOJI_PARAM_SIZE] params)
              BITMOJI_PARAM_SIZE f w st p (Some relu) default_initializer
              zeros_initializer ("Deconv_" +:+ str 0) false s)
    as (s' & Hrun & Hattrs' & _);
    [reflexivity | reflexivity | apply Hvars; reflexivity
    | apply Hvars; reflexivity |].
  erewrite bind_inl; [reflexivity|].
  erewrite bind_inr by (apply index_Some; exact Hf).
  erewrite bind_inr by (apply index_Some; exact Hw).
  erewrite bind_inr by (apply index_Some; exact Hst).
  erewrite bind_inr by (apply index_Some; exact Hp).
  rewrite (bind_inr _ _ _ _ _ Hrun).
  apply bind_inl. unfold getattr. rewrite Hattrs', Hattrs. reflexivity.
Qed.

Lemma build_graph_raises inputs s :
  2 <= length (conv_filters (avatar_synth_model archs)) ->
  attrs s !! "preds" = None ->
  exists e,
    (_build_graph archs args BITMOJI_PARAM_SPLIT BITMOJI_PARAM_SIZE
                  infer_shape inputs s).1 = inl e /\
    attrs (_build_graph archs args BITMOJI_PARAM_SPLIT BITMOJI_PARAM_SIZE
                        infer_shape inputs s).2 = attrs s.
Proof.
  intros Hlen Hattrs. destruct inputs as [face_imgs bitmoji_imgs].
  unfold _build_graph.
  remember (attrs s) as dict eqn:Hs. symmetry in Hs.
  do 3 step_keeping_attrs Hs.
  rewrite <- Hs in Hattrs.
  destruct (avatar_synth_raises archs BITMOJI_PARAM_SIZE a1 s2 Hlen Hattrs)
    as (e & He & Hk).
  destruct (_avatar_synth archs BITMOJI_PARAM_SIZE a1 s2) as [[e'|t] s3] eqn:Hrun;
    simpl in He; [|discriminate].
  rewrite (bind_inl _ _ _ _ _ Hrun). exists e'. simpl in *.
  split; congruence.
Qed.

Lemma build_graph_attribute_error face_imgs bitmoji_imgs d
    face_encodings s1 gen_faces s2 params s3 :
  stage_descriptor (avatar_synth_model archs) 0 = Some d ->
  _face_encoder archs args face_imgs fresh = (inr face_encodings, s1) ->
  _generator archs args face_encodings s1 = (inr gen_faces, s2) ->
  _param_encoder archs args BITMOJI_PARAM_SPLIT gen_faces s2 = (inr params, s3) ->
  (_build_graph archs args BITMOJI_PARAM_SPLIT BITMOJI_PARAM_SIZE infer_shape
                (face_imgs, bitmoji_imgs) fresh).1
    = inl (AttributeError "preds").
Proof.
  intros Hd H1 H2 H3. unfold _build_graph.
  rewrite (bind_inr _ _ _ _ _ H1), (bind_inr _ _ _ _ _ H2),
          (bind_inr _ _ _ _ _ H3).
  assert (Hsynth : (_avatar_synth archs BITMOJI_PARAM_SIZE params s3).1
                   = inl (AttributeError "preds")).
  { apply (avatar_synth_attribute_error _ _ d Hd).
    - pose proof (keeps_attrs_face_encoder archs args face_imgs fresh) as K1.
      pose proof (keeps_attrs_generator archs args face_encodings s1) as K2.
      pose proof (keeps_attrs_param_encoder archs args BITMOJI_PARAM_SPLIT
                    gen_faces s2) as K3.
      rewrite H1 in K1. rewrite H2 in K2. rewrite H3 in K3. simpl in *.
      rewrite K3, K2, K1. done.
    - intros name Hname.
      pose proof (face_encoder_keeps_avatar_synth archs args face_imgs
                    fresh name Hname) as K1.
      pose proof (generator_keeps_avatar_synth archs args face_encodings
                    s1 name Hname) as K2.
      pose proof (param_encoder_keeps_avatar_synth archs args
                    BITMOJI_PARAM_SPLIT gen_faces s2 name Hname) as K3.
      rewrite H1 in K1. rewrite H2 in K2. rewrite H3 in K3. simpl in *.
      rewrite K3, K2, K1. done. }
  destruct (_avatar_synth archs BITMOJI_PARAM_SIZE params s3) as [[e|t] s4] eqn:Hrun;
    simpl in Hsynth; [|discriminate].
  rewrite (bind_inl _ _ _ _ _ Hrun). simpl. congruence.
Qed.

(** C2.  With an architecture of at least one stage and an instance on
    which [preds] was never assigned, every call of [_avatar_synth] raises
    and so does [_build_graph], leaving every attribute (hence every loss)
    unset; once the three sub-networks in front of it are built, from the
    fresh instance, the exception is [AttributeError: preds]. *)
Theorem avatar_synth_always_raises
    (Hstage : 2 <= length (conv_filters (avatar_synth_model archs))) :
  (forall params s, attrs s !! "preds" = None ->
     exists e, (_avatar_synth archs BITMOJI_PARAM_SIZE params s).1 = inl e) /\
  (forall inputs s, attrs s !! "preds" = None ->
     exists e,
       (_build_graph archs args BITMOJI_PARAM_SPLIT BITMOJI_PARAM_SIZE
                     infer_shape inputs s).1 = inl e /\
       attrs (_build_graph archs args BITMOJI_PARAM_SPLIT BITMOJI_PARAM_SIZE
                           infer_shape inputs s).2 = attrs s) /\
  (forall params, is_Some (stage_descriptor (avatar_synth_model archs) 0) ->
     (_avatar_synth archs BITMOJI_PARAM_SIZE params fresh).1
       = inl (AttributeError "preds")) /\
  (forall face_imgs bitmoji_imgs face_encodings s1 gen_faces s2 params s3,
     is_Some (stage_descriptor (avatar_synth_model archs) 0) ->
     _face_encoder archs args face_imgs fresh = (inr face_encodings, s1) ->
     _generator archs args face_encodings s1 = (inr gen_faces, s2) ->
     _param_encoder archs args BITMOJI_PARAM_SPLIT gen_faces s2
       = (inr params, s3) ->
     (_build_graph archs args BITMOJI_PARAM_SPLIT BITMOJI_PARAM_SIZE
                   infer_shape (face_imgs, bitmoji_imgs) fresh).1
       = inl (AttributeError "preds")).
Proof.
  split; [|split; [|split]].
  - intros params s Hattrs.
    destruct (avatar_synth_raises archs BITMOJI_PARAM_SIZE params s Hstage Hattrs)
      as (e & He & _). eauto.
  - intros inputs s Hattrs.
    destruct (build_graph_raises inputs s Hstage Hattrs) as (e & He & Hk).
    eauto.
  - intros params [d Hd].
    apply (avatar_synth_attribute_error _ _ d Hd); done.
  - intros face_imgs bitmoji_imgs fe s1 g s2 p s3 [d Hd].
    apply (build_graph_attribute_error _ _ d); done.
Qed.
End BuildGraphFailure.

Lemma avatar_synth_always_raises_witness :
  2 <= length (conv_filters (avatar_synth_model Example.archs)) /\
  (_build_graph Example.archs Example.args Example.BITMOJI_PARAM_SPLIT
     Example.BITMOJI_PARAM_SIZE Example.infer_shape
     (Example.face_imgs, Example.bitmoji_imgs) fresh).1
  = inl (AttributeError "preds").
Proof.
  assert (H : 2 <= length (conv_filters (avatar_synth_model Example.archs)))
    by (simpl; lia).
  split; [exact H|].
  destruct (avatar_synth_always_raises Example.archs Example.args
              Example.BITMOJI_PARAM_SPLIT Example.BITMOJI_PARAM_SIZE
              Example.infer_shape H) as (_ & _ & _ & Hbuild).
  apply (Hbuild Example.face_imgs Example.bitmoji_imgs
           Example.face_encodings Example.s1 Example.gen_faces Example.s2
           Example.predicted Example.s3).
  - eexists. reflexivity.
  - vm_compute. reflexivity.
  - vm_compute. reflexivity.
  - vm_compute. reflexivity.
Defined.

(** ** The adversarial losses *)




(** ** What a successful layer call returns *)

Lemma index_inv {A} (l : list A) i a s s' :
  index l i s = (inr a, s') -> l !! i = Some a /\ s' = s.
Proof.
  unfold index. destruct (l !! i); [|discriminate].
  intros [= -> ->]. done.
Qed.

Lemma conv2d_inv sc x f k st p act ki bi name tr s t s' :
  conv2d sc x f k st p act ki bi name tr s = (inr t, s') ->
  t = Conv2D (scoped (scope_name sc) name) f k st p act x.
Proof.
  unfold conv2d. intros H.
  apply bind_inv in H as (d & s1 & _ & H).
  apply bind_inv in H as ([] & s2 & _ & H).
  apply bind_inv in H as ([] & s3 & _ & H).
  by injection H as <- _.
Qed.

Lemma conv2d_transpose_inv sc x f k st p act ki bi name tr s t s' :
  conv2d_transpose sc x f k st p act ki bi name tr s = (inr t, s') ->
  t = Conv2DTranspose (scoped (scope_name sc) name) f k st p act x.
Proof.
  unfold conv2d_transpose. intros H.
  apply bind_inv in H as (d & s1 & _ & H).
  apply bind_inv in H as ([] & s2 & _ & H).
  apply bind_inv in H as ([] & s3 & _ & H).
  by injection H as <- _.
Qed.

Lemma batch_normalization_inv sc x name tr s t s' :
  batch_normalization sc x name tr s = (inr t, s') ->
  t = BatchNormalization (scoped (scope_name sc) name) x.
Proof.
  unfold batch_normalization. intros H.
  apply bind_inv in H as (d & s1 & _ & H).
  do 4 apply bind_inv in H as ([] & ? & _ & H).
  by injection H as <- _.
Qed.

Lemma dense_inv sc x u act ki bi name reuse s t s' :
  dense sc x u act ki bi name reuse s = (inr t, s') ->
  t = Dense (scoped (scope_name sc) name) u act x.
Proof.
  unfold dense. intros H.
  apply bind_inv in H as (d & s1 & _ & H).
  do 2 apply bind_inv in H as ([] & ? & _ & H).
  by injection H as <- _.
Qed.

Lemma for_range_app {A} l1 l2 (body : nat -> A -> M A) a s :
  for_range (l1 ++ l2) body a s
  = bind (for_range l1 body a) (for_range l2 body) s.
Proof.
  revert a s. induction l1 as [|i l1 IH]; intros a s; simpl.
  - done.
  - unfold bind in *. destruct (body i a s) as [[e|a'] s1]; [done|].
    apply IH.
Qed.

(** A loop whose every stage puts one (de)convolution, read from stage [i]
    of the architecture, on top of its input. *)
Lemma for_range_stage_params (a : arch) (body : nat -> tensor -> M tensor) :
  (forall i x s t s', body i x s = (inr t, s') ->
     exists d, stage_descriptor a i = Some d /\
               stage_params t = d :: stage_params x) ->
  forall idxs x s t s', for_range idxs body x s = (inr t, s') ->
    stage_params t
      = (rev (omap (stage_descriptor a) idxs) ++ stage_params x)%list /\
    length (omap (stage_descriptor a) idxs) = length idxs.
Proof.
  intros Hbody idxs. induction idxs as [|i rest IH]; intros x s t s' H; simpl in H.
  - injection H as <- _. done.
  - apply bind_inv in H as (x1 & s1 & Hfirst & Hrest).
    apply Hbody in Hfirst as (d & Hd & Hx1).
    apply IH in Hrest as [Hrest Hlen].
    assert (Hcons : omap (stage_descriptor a) (i :: rest)
                    = d :: omap (stage_descriptor a) rest)
      by (simpl; by rewrite Hd).
    rewrite Hcons. cbn [rev length]. rewrite Hrest, Hx1, Hlen.
    split; [|done]. by rewrite <- app_assoc.
Qed.

(** Inverts a successful run, bind by bind. *)
Ltac invert_run H :=
  repeat
    (let a := fresh "a" in
     let s := fresh "s" in
     let Hm := fresh "Hm" in
     apply bind_inv in H as (a & s & Hm & H);
     first [ apply index_inv in Hm as [Hm ->]
           | apply conv2d_inv in Hm as ->
           | apply conv2d_transpose_inv in Hm as ->
           | apply batch_normalization_inv in Hm as ->
           | apply dense_inv in Hm as ->
           | idtac ]).

Lemma stage_descriptor_Some (a : arch) i f w st p :
  conv_filters a !! (i + 1) = Some f -> filter_widths a !! i = Some w ->
  strides a !! i = Some st -> padding a !! i = Some p ->
  stage_descriptor a i = Some (f, w, st, p).
Proof.
  intros Hf Hw Hst Hp. unfold stage_descriptor.
  rewrite Hf, Hw, Hst, Hp. done.
Qed.

Section SharedDescriptor.
Variables (archs : archs_module) (args : cli_args).
Variable BITMOJI_PARAM_SIZE : nat.

Lemma discriminator_stage_params imgs s d s' :
  _discriminator archs args imgs s = (inr d, s') ->
  stage_params d
    = (rev (descriptor (avatar_synth_model archs)) ++ stage_params imgs)%list /\
  length (descriptor (avatar_synth_model archs))
    = length (stages (avatar_synth_model archs)).
Proof.
  unfold _discriminator, descriptor.
  apply (for_range_stage_params (avatar_synth_model archs)).
  clear. intros i x s t s' H.
  invert_run H.
  exists (a, a0, a1, a2). split; [by apply stage_descriptor_Some|].
  destruct (is_interior _ _).
  - invert_run H. by injection H as <- _.
  - by injection H as <- _.
Qed.

Lemma avatar_synth_stage_params params s t s' :
  _avatar_synth archs BITMOJI_PARAM_SIZE params s = (inr t, s') ->
  stage_params t = rev (descriptor (avatar_synth_model archs)).
Proof.
  unfold _avatar_synth, descriptor. intros H.
  eapply (for_range_stage_params (avatar_synth_model archs)) in H as [H _].
  - rewrite H. simpl. by rewrite app_nil_r.
  - clear. intros i x s t s' H.
    invert_run H.
    exists (a, a0, a1, a2). split; [by apply stage_descriptor_Some|].
    destruct (is_interior _ _).
    + apply batch_normalization_inv in H as ->. done.
    + by injection H as <- _.
Qed.

(** C10.  The discriminator is built from [archs.avatar_synth_model]: its
    convolutions carry, stage by stage, the filter counts, kernel widths,
    strides and padding modes of that descriptor, which are also those of the
    synthesizer's deconvolutions; and it reads nothing else of the
    architecture module, so no configuration of its own exists. *)
Theorem discriminator_shares_avatar_synth_descriptor :
  (forall imgs s d s',
     _discriminator archs args imgs s = (inr d, s') ->
     stage_params d
       = (rev (descriptor (avatar_synth_model archs)) ++ stage_params imgs)%list /\
     length (descriptor (avatar_synth_model archs))
       = length (stages (avatar_synth_model archs))) /\
  (forall imgs params s1 d s1' s2 t s2',
     stage_params imgs = [] ->
     _discriminator archs args imgs s1 = (inr d, s1') ->
     _avatar_synth archs BITMOJI_PARAM_SIZE params s2 = (inr t, s2') ->
     stage_params d = stage_params t) /\
  (forall archs' imgs s,
     avatar_synth_model archs' = avatar_synth_model archs ->
     _discriminator archs' args imgs s = _discriminator archs args imgs s).
Proof.
  split; [|split].
  - apply discriminator_stage_params.
  - intros imgs params s1 d s1' s2 t s2' Himgs Hd Ht.
    apply discriminator_stage_params in Hd as [-> _].
    apply avatar_synth_stage_params in Ht as ->.
    rewrite Himgs. by rewrite app_nil_r.
  - intros archs' imgs s Heq. unfold _discriminator. by rewrite Heq.
Qed.
End SharedDescriptor.

Lemma discriminator_shares_avatar_synth_descriptor_witness :
  stage_params (Example.result
                  (_discriminator Example.archs Example.args
                                  Example.bitmoji_imgs fresh))
  = stage_params (Example.result
                    (_avatar_synth Example.archs Example.BITMOJI_PARAM_SIZE
                                   Example.params Example.with_preds)) /\
  stage_params (Example.result
                  (_discriminator Example.archs Example.args
                                  Example.bitmoji_imgs fresh))
  = [(3, 4, 2, "SAME"); (4, 4, 1, "VALID")].
Proof.
  split; [|vm_compute; reflexivity].
  apply (proj1 (proj2 (discriminator_shares_avatar_synth_descriptor
                         Example.archs Example.args Example.BITMOJI_PARAM_SIZE))
           Example.bitmoji_imgs Example.params fresh _
           (_discriminator Example.archs Example.args
                           Example.bitmoji_imgs fresh).2
           Example.with_preds _
           (_avatar_synth Example.archs Example.BITMOJI_PARAM_SIZE
                          Example.params Example.with_preds).2).
  - reflexivity.
  - vm_compute. reflexivity.
  - vm_compute. reflexivity.
Defined.

(** ** The generator's last stage *)

Lemma stages_last (a : arch) :
  2 <= length (conv_filters a) ->
  stages a = (seq 0 (length (conv_filters a) - 2)
              ++ [length (conv_filters a) - 2])%list.
Proof.
  intros H. rewrite stages_seq.
  replace (length (conv_filters a) - 1) with (S (length (conv_filters a) - 2)) by lia.
  by rewrite seq_S.
Qed.

Lemma is_last_last (a : arch) :
  2 <= length (conv_filters a) ->
  is_last a (length (conv_filters a) - 2) = true.
Proof. intros H. unfold is_last. apply bool_decide_eq_true. lia. Qed.

Lemma is_interior_last (a : arch) :
  is_interior a (length (conv_filters a) - 2) = false.
Proof. unfold is_interior. apply bool_decide_eq_false. lia. Qed.

(** C5 (what the code does).  Whenever the generator is built from an
    architecture of at least one stage, the last op on its output is the
    1x1 refinement layer with ReLU, and tanh is the activation of the
    deconvolution underneath it: the output passes through ReLU after tanh. *)
Theorem generator_output_ends_with_relu
    (archs : archs_module) (args : cli_args) (encodings : tensor)
    (s : state) (t : tensor) (s' : state)
    (Hstage : 2 <= length (conv_filters (generator_model archs)))
    (Hrun : _generator archs args encodings s = (inr t, s')) :
  exists name name' f w st p x,
    t = Conv2DTranspose name f 1 1 "SAME" (Some relu)
          (Conv2DTranspose name' f w st p (Some tanh) x) /\
    activations t = relu :: tanh :: activations x.
Proof.
  unfold _generator in Hrun.
  apply bind_inv in Hrun as (fc & s1 & _ & Hloop).
  rewrite (stages_last _ Hstage), for_range_app in Hloop.
  apply bind_inv in Hloop as (x & s2 & _ & Hlast).
  cbn [for_range] in Hlast.
  rewrite (is_last_last _ Hstage), is_interior_last in Hlast.
  apply bind_inv in Hlast as (t' & s3 & Hbody & Hret).
  injection Hret as <- _.
  invert_run Hbody. injection Hbody as <- _.
  rewrite Hm in Hm3. injection Hm3 as <-.
  by eexists _, _, _, _, _, _, _.
Qed.

Lemma generator_output_ends_with_relu_witness :
  exists rest,
    activations (Example.result
                   (_generator Example.archs Example.args
                               Example.encodings fresh))
    = relu :: tanh :: rest.
Proof.
  destruct (generator_output_ends_with_relu Example.archs Example.args
              Example.encodings fresh
              (Example.result
                 (_generator Example.archs Example.args Example.encodings fresh))
              (_generator Example.archs Example.args Example.encodings fresh).2
              ltac:(simpl; lia) ltac:(vm_compute; reflexivity))
    as (name & name' & f & w & st & p & x & Ht & Hact).
  exists (activations x). exact Hact.
Defined.

(** ** Which variables an optimizer step may change *)

Lemma keeps_existing_ret {A} (a : A) : keeps_existing (ret a).
Proof. intros s name v H. exact H. Qed.

Lemma keeps_existing_bind {A B} (m : M A) (k : A -> M B) :
  keeps_existing m -> (forall a, keeps_existing (k a)) ->
  keeps_existing (bind m k).
Proof.
  intros Hm Hk s name v Hs. unfold bind. specialize (Hm s name v Hs).
  destruct (m s) as [[e|a] s1]; simpl in *; [done|].
  by apply Hk.
Qed.

Lemma keeps_existing_get_variable mode name shape init tr :
  keeps_existing (get_variable mode name shape init tr).
Proof.
  intros s name' v Hs. unfold get_variable.
  destruct (variables s !! name) eqn:Hname; destruct mode; simpl; try done;
    try (case_decide; done).
  all: rewrite lookup_insert_ne; [done|congruence].
Qed.

Lemma batch_normalization_creates_trainable sc x d name tr s :
  scope_reuse sc = AUTO_REUSE ->
  last_dim x = Some d ->
  variables s !! (scoped (scope_name sc) name +:+ "/gamma") = None ->
  variables (batch_normalization sc x name tr s).2
    !! (scoped (scope_name sc) name +:+ "/gamma")
  = Some (Var [d] tr default_initializer).
Proof.
  intros Hsc Hx Hg. unfold batch_normalization, input_channels. rewrite Hx.
  simpl. rewrite Hsc.
  rewrite (bind_inr _ _ _ d s) by done.
  rewrite (bind_inr _ _ _ _ _ (get_variable_fresh _ _ _ _ _ Hg)).
  apply keeps_existing_bind.
  - apply keeps_existing_get_variable.
  - intros _. apply keeps_existing_bind; [apply keeps_existing_get_variable|].
    intros _. apply keeps_existing_bind; [apply keeps_existing_get_variable|].
    intros _. apply keeps_existing_ret.
  - simpl. by rewrite lookup_insert_eq.
Qed.

(** ** The generator's projection layer *)

Lemma dense_shares_existing sc x d u act ki bi name reuse s vk vb :
  scope_reuse sc = AUTO_REUSE ->
  reuse = reuse_False \/ reuse = reuse_None ->
  last_dim x = Some d ->
  variables s !! (scoped (scope_name sc) name +:+ "/kernel") = Some vk ->
  var_shape vk = [d; u] ->
  variables s !! (scoped (scope_name sc) name +:+ "/bias") = Some vb ->
  var_shape vb = [u] ->
  dense sc x u act ki bi name reuse s
    = (inr (Dense (scoped (scope_name sc) name) u act x), s).
Proof.
  intros Hsc Hreuse Hx Hk Hks Hb Hbs. unfold dense, input_channels. rewrite Hx.
  assert (Hmode : scope_reuse (variable_scope name reuse sc) = AUTO_REUSE)
    by (destruct Hreuse as [-> | ->]; simpl; by rewrite Hsc).
  rewrite Hmode. simpl.
  rewrite (bind_inr _ _ _ d s) by done.
  rewrite (bind_inr _ _ _ _ _ (get_variable_shared _ _ _ _ _ _ Hk Hks)).
  rewrite (bind_inr _ _ _ _ _ (get_variable_shared _ _ _ _ _ _ Hb Hbs)).
  done.
Qed.

(** ** The re-parameterised sample, on values *)

Lemma stretch_same {A} (l : list A) : V.stretch (length l) l = l.
Proof. destruct l as [|x [|y l]]; done. Qed.

Lemma broadcast_len_same n : V.broadcast_len n n = Some n.
Proof. unfold V.broadcast_len. by rewrite bool_decide_eq_true_2. Qed.

Lemma mapM_zip_total {A B C} (f : A -> B -> option C) (g : A -> B -> C) a b :
  Forall2 (fun x y => f x y = Some (g x y)) a b ->
  mapM (fun p => f p.1 p.2) (zip a b) = Some (zip_with g a b).
Proof.
  induction 1 as [|x y a b Hxy _ IH]; simpl; [done|].
  rewrite Hxy. simpl. rewrite IH. done.
Qed.

Lemma broadcast_same {A B C} (f : A -> B -> option C) (g : A -> B -> C) a b :
  Forall2 (fun x y => f x y = Some (g x y)) a b ->
  V.broadcast f a b = Some (zip_with g a b).
Proof.
  intros H. unfold V.broadcast.
  pose proof (Forall2_length _ _ _ H) as Hlen.
  rewrite <- Hlen, broadcast_len_same. simpl.
  rewrite stretch_same. rewrite Hlen at 1. rewrite stretch_same.
  by apply mapM_zip_total.
Qed.

Lemma elementwise2_same (f : R -> R -> R) (a b : list (list R)) n d :
  has_shape a n d -> has_shape b n d ->
  V.elementwise2 f a b = Some (zip_with (zip_with f) a b).
Proof.
  intros [Han Ha] [Hbn Hb]. unfold V.elementwise2.
  apply broadcast_same.
  apply Forall2_same_length_lookup_2; [congruence|].
  intros i x y Hx Hy.
  apply broadcast_same.
  apply Forall2_same_length_lookup_2.
  - rewrite Forall_lookup in Ha, Hb. rewrite (Ha _ _ Hx), (Hb _ _ Hy). done.
  - done.
Qed.

Lemma has_shape_zip_with (f : R -> R -> R) (a b : list (list R)) n d :
  has_shape a n d -> has_shape b n d ->
  has_shape (zip_with (zip_with f) a b) n d.
Proof.
  intros [Han Ha] [Hbn Hb]. split.
  - rewrite length_zip_with. lia.
  - apply Forall_lookup. intros i row Hrow.
    apply lookup_zip_with_Some in Hrow as (x & y & -> & Hx & Hy).
    rewrite Forall_lookup in Ha, Hb.
    rewrite length_zip_with, (Ha _ _ Hx), (Hb _ _ Hy). lia.
Qed.

Lemma has_shape_map (f : R -> R) (a : list (list R)) n d :
  has_shape a n d -> has_shape (map (map f) a) n d.
Proof.
  intros [Han Ha]. split.
  - by rewrite length_map.
  - apply Forall_lookup. intros i row Hrow.
    rewrite list_lookup_fmap in Hrow.
    destruct (a !! i) as [x|] eqn:Hx; simpl in Hrow; [|done]. injection Hrow as <-.
    rewrite Forall_lookup in Ha. rewrite length_map. eauto.
Qed.

(** C9 (amended).  For a batch whose size is the configured [batch_size],
    the shape the noise is sampled with, the face encoder returns an encoding
    of shape [(batch_size, D)] whose row for a sample is
    [mean + sqrt(exp(sigma)) * noise] of that sample's own rows: it does not
    depend on the other samples of the batch. *)
Theorem face_encoding_at_configured_batch_size
    (D n : nat) (z_mean z_sigma noise : list (list R))
    (Hmean : has_shape z_mean n D) (Hsigma : has_shape z_sigma n D)
    (Hnoise : has_shape noise n D) :
  exists out : list (list R),
    V.z_x z_mean z_sigma noise = Some out /\
    has_shape out n D /\
    forall b mean sigma eps,
      z_mean !! b = Some mean -> z_sigma !! b = Some sigma ->
      noise !! b = Some eps ->
      out !! b = Some (V.z_x_row mean sigma eps).
Proof.
  unfold V.z_x.
  rewrite (elementwise2_same _ _ _ n D) by (try apply has_shape_map; done).
  simpl.
  rewrite (elementwise2_same _ _ _ n D)
    by (try apply has_shape_zip_with; try apply has_shape_map; done).
  eexists. split; [reflexivity|]. split.
  - apply has_shape_zip_with; [done|].
    apply has_shape_zip_with; [by apply has_shape_map|done].
  - intros b mean sigma eps Hm Hs He.
    rewrite lookup_zip_with, Hm. simpl.
    rewrite lookup_zip_with, list_lookup_fmap, Hs. simpl. rewrite He. simpl.
    unfold V.z_x_row. by rewrite zip_with_fmap_l.
Qed.

Lemma face_encoding_at_configured_batch_size_witness :
  exists out : list (list R),
    V.z_x [[1%R]; [2%R]] [[0%R]; [0%R]] [[3%R]; [4%R]] = Some out /\
    has_shape out 2 1 /\
    forall b mean sigma eps,
      [[1%R]; [2%R]] !! b = Some mean -> [[0%R]; [0%R]] !! b = Some sigma ->
      [[3%R]; [4%R]] !! b = Some eps ->
      out !! b = Some (V.z_x_row mean sigma eps).
Proof.
  apply (face_encoding_at_configured_batch_size 1 2);
    (split; [reflexivity | repeat constructor]).
Defined.

(** C9 (as stated) fails: with [batch_size = 2] the noise has two rows, and
    a batch of three samples cannot be combined with it; no encoding comes
    out. *)
Lemma face_encoder_rejects_other_batch_sizes :
  ~ face_encoder_accepts_any_batch_size.
Proof.
  intros H.
  destruct (H 2 1 3 [[0%R]; [0%R]; [0%R]] [[0%R]; [0%R]; [0%R]]
              [[0%R]; [0%R]]) as (out & Hout & _).
  - split; [done|]. repeat constructor.
  - split; [done|]. repeat constructor.
  - split; [done|]. repeat constructor.
  - vm_compute in Hout. discriminate.
Qed.

(** ** The face encoder *)

(** "Noise is independently sampled per batch element": in the encoding of
    a batch, two different samples are combined with two different rows of
    the sampled noise. *)
Lemma map_map_sqrt_exp (m : list (list R)) :
  map (map sqrt) (map (map exp) m) = map (map (fun x => sqrt (exp x))) m.
Proof. rewrite map_map. apply map_ext. intros row. by rewrite map_map. Qed.

Lemma z_x_at_batch_size (D n : nat) (z_mean z_sigma noise : list (list R)) :
  has_shape z_mean n D -> has_shape z_sigma n D -> has_shape noise n D ->
  exists out : list (list R),
    V.z_x z_mean z_sigma noise = Some out /\
    has_shape out n D /\
    forall b mean sigma eps,
      z_mean !! b = Some mean -> z_sigma !! b = Some sigma ->
      noise !! b = Some eps ->
      out !! b = Some (V.z_x_row mean sigma eps).
Proof.
  intros Hmean Hsigma Hnoise. unfold V.z_x.
  rewrite (elementwise2_same _ _ _ n D) by (try apply has_shape_map; done).
  simpl.
  rewrite (elementwise2_same _ _ _ n D)
    by (try apply has_shape_zip_with; try apply has_shape_map; done).
  eexists. split; [reflexivity|]. split.
  - apply has_shape_zip_with; [done|].
    apply has_shape_zip_with; [by apply has_shape_map|done].
  - intros b mean sigma eps Hm Hs He.
    rewrite lookup_zip_with, Hm. simpl.
    rewrite lookup_zip_with, list_lookup_fmap, Hs. simpl. rewrite He. simpl.
    unfold V.z_x_row. by rewrite zip_with_fmap_l.
Qed.

Lemma denote_z_x leaf z_mean z_sigma noise_op mean sigma noise :
  denote leaf z_mean = Some mean -> denote leaf z_sigma = Some sigma ->
  denote leaf noise_op = Some noise ->
  denote leaf (Add z_mean (Mul (Sqrt (Exp z_sigma)) noise_op))
  = V.z_x mean sigma noise.
Proof.
  intros Hm Hs Hn. cbn [denote]. rewrite Hm, Hs, Hn. cbn [mbind option_bind fmap option_fmap option_map].
  unfold V.z_x. by rewrite map_map_sqrt_exp.
Qed.

(** C7 (amended).  Whenever the face encoder returns, its output is
    [z_mean + sqrt(exp(z_sigma)) * noise], where [z_mean] and [z_sigma] are
    the two fully connected heads of width [FACE_ENCODING_SIZE] on the same
    features and [noise] is a sampling op of shape
    [(batch_size, FACE_ENCODING_SIZE)] created by this very call: no later
    call gets the same op.  On values, for a batch of exactly [batch_size]
    samples, sample [b] is combined with row [b] of the noise. *)
Theorem face_encoder_samples_fresh_noise
    (archs : archs_module) (args : cli_args) (imgs : tensor)
    (s : state) (z : tensor) (s1 : state)
    (Hrun : _face_encoder archs args imgs s = (inr z, s1)) :
  exists z_mean z_sigma fc1,
    z = Add z_mean (Mul (Sqrt (Exp z_sigma))
              (RandomNormal (random_ops s)
                            [batch_size args; FACE_ENCODING_SIZE archs])) /\
    z_mean = VaeFullyConnect "Face_Encoder/Encode" "e_f2"
                             (FACE_ENCODING_SIZE archs) fc1 /\
    z_sigma = VaeFullyConnect "Face_Encoder/Encode" "e_f3"
                              (FACE_ENCODING_SIZE archs) fc1 /\
    random_ops s < random_ops s1 /\
    (forall imgs' s' z' s2,
       random_ops s1 <= random_ops s' ->
       _face_encoder archs args imgs' s' = (inr z', s2) ->
       is_Some (sampled_noise z') /\
       sampled_noise z' <>
         Some (RandomNormal (random_ops s)
                            [batch_size args; FACE_ENCODING_SIZE archs])) /\
    (forall (leaf : tensor -> option (list (list R)))
            (mean sigma noise : list (list R)),
       leaf z_mean = Some mean -> leaf z_sigma = Some sigma ->
       leaf (RandomNormal (random_ops s)
                          [batch_size args; FACE_ENCODING_SIZE archs])
         = Some noise ->
       has_shape mean (batch_size args) (FACE_ENCODING_SIZE archs) ->
       has_shape sigma (batch_size args) (FACE_ENCODING_SIZE archs) ->
       has_shape noise (batch_size args) (FACE_ENCODING_SIZE archs) ->
       exists out : list (list R),
         denote leaf z = Some out /\
         has_shape out (batch_size args) (FACE_ENCODING_SIZE archs) /\
         forall b m sg eps,
           mean !! b = Some m -> sigma !! b = Some sg ->
           noise !! b = Some eps ->
           out !! b = Some (V.z_x_row m sg eps)).
Proof.
  unfold _face_encoder, random_normal, bind, ret in Hrun. simpl in Hrun.
  injection Hrun as <- <-.
  do 3 eexists. split; [reflexivity|].
  split; [reflexivity|]. split; [reflexivity|].
  split; [simpl; lia|]. split.
  - intros imgs' s' z' s2 Hlater Hrun'.
    unfold _face_encoder, random_normal, bind, ret in Hrun'. simpl in Hrun'.
    injection Hrun' as <- <-. simpl in *. split; [eauto|].
    intros [= Heq]. lia.
  - intros leaf mean sigma noise Hm Hs Hn Hmean Hsigma Hnoise.
    rewrite (denote_z_x leaf _ _ _ mean sigma noise) by done.
    by apply z_x_at_batch_size.
Qed.

Lemma face_encoder_samples_fresh_noise_witness :
  exists z_mean z_sigma fc1,
    Example.face_encodings
    = Add z_mean (Mul (Sqrt (Exp z_sigma)) (RandomNormal 0 [4; 16])) /\
    z_mean = VaeFullyConnect "Face_Encoder/Encode" "e_f2" 16 fc1 /\
    z_sigma = VaeFullyConnect "Face_Encoder/Encode" "e_f3" 16 fc1 /\
    0 < random_ops Example.s1 /\
    (forall imgs' s' z' s2,
       random_ops Example.s1 <= random_ops s' ->
       _face_encoder Example.archs Example.args imgs' s' = (inr z', s2) ->
       is_Some (sampled_noise z') /\
       sampled_noise z' <> Some (RandomNormal 0 [4; 16])) /\
    (forall (leaf : tensor -> option (list (list R)))
            (mean sigma noise : list (list R)),
       leaf z_mean = Some mean -> leaf z_sigma = Some sigma ->
       leaf (RandomNormal 0 [4; 16]) = Some noise ->
       has_shape mean 4 16 -> has_shape sigma 4 16 -> has_shape noise 4 16 ->
       exists out : list (list R),
         denote leaf Example.face_encodings = Some out /\
         has_shape out 4 16 /\
         forall b m sg eps,
           mean !! b = Some m -> sigma !! b = Some sg ->
           noise !! b = Some eps ->
           out !! b = Some (V.z_x_row m sg eps)).
Proof.
  apply (face_encoder_samples_fresh_noise
           Example.archs Example.args Example.face_imgs fresh
           Example.face_encodings Example.s1).
  vm_compute; reflexivity.
Defined.

(** C7 (as stated) fails: the noise has [batch_size] rows, not one per
    batch element.  With [batch_size = 1] a batch of two samples is encoded,
    and both samples are combined with the one row that was sampled. *)
Lemma face_encoder_shares_noise_within_a_batch :
  ~ noise_is_drawn_per_batch_element.
Proof.
  intros H.
  destruct (H 1 1 2 [[0%R]; [0%R]] [[0%R]; [0%R]] [[1%R]]
              [V.z_x_row [0%R] [0%R] [1%R]; V.z_x_row [0%R] [0%R] [1%R]]) with
    (b1 := 0) (b2 := 1) (mean1 := [0%R]) (sigma1 := [0%R])
    (mean2 := [0%R]) (sigma2 := [0%R])
    as (r1 & r2 & eps1 & eps2 & Hne & Hr1 & Hr2 & _).
  - split; [reflexivity | repeat constructor].
  - split; [reflexivity | repeat constructor].
  - split; [reflexivity | repeat constructor].
  - reflexivity.
  - discriminate.
  - reflexivity.
  - reflexivity.
  - reflexivity.
  - reflexivity.
  - apply lookup_lt_Some in Hr1, Hr2. simpl in Hr1, Hr2. lia.
Qed.

(** ** The head of the parameter encoder, on values *)

Lemma rsum_map_exp_nonneg (v : list R) : (0 <= V.rsum (map exp v))%R.
Proof.
  induction v as [|x v IH]; simpl; [lra|].
  pose proof (exp_pos x). lra.
Qed.

Lemma rsum_map_exp_pos (v : list R) : v <> [] -> (0 < V.rsum (map exp v))%R.
Proof.
  destruct v as [|x v]; [done|]. intros _. simpl.
  pose proof (exp_pos x). pose proof (rsum_map_exp_nonneg v). lra.
Qed.

Lemma rsum_map_div (f : R -> R) (c : R) (v : list R) :
  V.rsum (map (fun x => f x / c)%R v) = (V.rsum (map f v) / c)%R.
Proof.
  induction v as [|x v IH]; simpl.
  - unfold Rdiv. lra.
  - rewrite IH. unfold Rdiv. lra.
Qed.

Lemma rsum_softmax_row (v : list R) : v <> [] -> V.rsum (V.softmax_row v) = 1%R.
Proof.
  intros Hv. unfold V.softmax_row. rewrite rsum_map_div.
  pose proof (rsum_map_exp_pos v Hv). field. lra.
Qed.

Lemma softmax_row_nonneg (v : list R) : Forall (fun y => (0 <= y)%R) (V.softmax_row v).
Proof.
  unfold V.softmax_row. apply Forall_forall. intros y Hy.
  apply list_elem_of_fmap in Hy as (x & -> & Hx).
  assert (Hv : v <> []) by (intros ->; by apply not_elem_of_nil in Hx).
  pose proof (rsum_map_exp_pos v Hv). pose proof (exp_pos x).
  apply Rlt_le, Rdiv_lt_0_compat; done.
Qed.

Lemma length_softmax_row (v : list R) : length (V.softmax_row v) = length v.
Proof. unfold V.softmax_row. by rewrite length_map. Qed.

Lemma length_concat_sum {A} (ps : list (list A)) :
  length (concat ps) = sum_list (map length ps).
Proof.
  induction ps as [|p ps IH]; simpl; [done|].
  rewrite length_app, IH. done.
Qed.

Lemma segment_concat (ps : list (list R)) k p :
  ps !! k = Some p -> V.segment (map length ps) k (concat ps) = p.
Proof.
  unfold V.segment. revert k. induction ps as [|q ps IH]; intros k Hk; [done|].
  destruct k as [|k]; simpl in *.
  - injection Hk as ->. apply take_app_length.
  - rewrite drop_app_add. by apply IH.
Qed.

Lemma length_segment (sizes : list nat) k (row : list R) :
  length row = sum_list sizes -> k < length sizes ->
  length (V.segment sizes k row) = sizes !!! k.
Proof.
  intros Hrow Hk. unfold V.segment.
  destruct (lookup_lt_is_Some_2 sizes k Hk) as [n Hn].
  rewrite (list_lookup_total_correct _ _ _ Hn).
  rewrite length_take, length_drop.
  pose proof (take_drop_middle _ _ _ Hn) as Hsplit.
  rewrite <- Hsplit in Hrow at 1.
  rewrite sum_list_with_app in Hrow. simpl in Hrow. unfold id in Hrow. lia.
Qed.

Lemma lookup_total_seq (sizes : list nat) :
  map (fun k => sizes !!! k) (seq 0 (length sizes)) = sizes.
Proof.
  apply list_eq. intros i. rewrite list_lookup_fmap.
  destruct (decide (i < length sizes)) as [Hi|Hi].
  - rewrite lookup_seq_lt by done. simpl.
    by rewrite list_lookup_lookup_total_lt.
  - rewrite !lookup_ge_None_2; [done|lia|rewrite length_seq; lia].
Qed.

Lemma forallb_row_lengths (flat : list (list R)) n d :
  has_shape flat n d ->
  forallb (fun row => bool_decide (length row = d)) flat = true.
Proof.
  intros [_ H]. apply forallb_forall. intros row Hrow.
  apply bool_decide_eq_true. rewrite Forall_forall in H.
  apply H. by apply list_elem_of_In.
Qed.

Lemma softmax_segments_lengths (sizes : list nat) (row : list R) :
  length row = sum_list sizes ->
  map length (map (fun k => V.softmax_row (V.segment sizes k row))
                  (seq 0 (length sizes))) = sizes.
Proof.
  intros Hrow. rewrite map_map.
  transitivity (map (fun k => sizes !!! k) (seq 0 (length sizes)));
    [|apply lookup_total_seq].
  apply map_ext_in. intros k Hk. apply in_seq in Hk.
  rewrite length_softmax_row. apply length_segment; [done|lia].
Qed.

Lemma param_head_rows (sizes : list nat) (flat : list (list R)) n :
  sizes <> [] ->
  has_shape flat n (sum_list sizes) ->
  V.param_head sizes flat
  = Some (map (fun row =>
                 concat (map (fun k => V.softmax_row (V.segment sizes k row))
                             (seq 0 (length sizes)))) flat).
Proof.
  intros Hsizes Hflat. unfold V.param_head, V.split.
  rewrite (forallb_row_lengths _ _ _ Hflat). simpl.
  destruct sizes as [|size sizes]; [done|].
  cbn [length seq map V.concat1]. f_equal.
  unfold V.softmax. rewrite !length_map.
  apply list_eq. intros b. rewrite !list_lookup_fmap.
  destruct (flat !! b) as [row|] eqn:Hrow; simpl.
  - rewrite lookup_seq_lt by (by eapply lookup_lt_Some). simpl.
    do 3 f_equal.
    + rewrite !list_lookup_fmap, Hrow. done.
    + rewrite !map_map. apply map_ext. intros k.
      by rewrite !list_lookup_fmap, Hrow.
  - rewrite lookup_ge_None_2; [done|].
    rewrite length_seq. by apply lookup_ge_None.
Qed.

(** With a non-empty partition into segments of positive size that
    add up to the width of the flattened activations, the head of the
    parameter encoder returns, for every row of the batch, the softmax of
    each segment, concatenated in the order of the partition: the output has
    the shape of its input, every entry is non-negative, and each configured
    segment of the output is the softmax of the same segment of the input and
    sums to 1. *)
Lemma param_head_segments_are_distributions
    (BITMOJI_PARAM_SPLIT : list nat) (flat : list (list R)) (n : nat)
    (Hsplit : BITMOJI_PARAM_SPLIT <> [])
    (Hpos : Forall (fun size => 0 < size) BITMOJI_PARAM_SPLIT)
    (Hflat : has_shape flat n (sum_list BITMOJI_PARAM_SPLIT)) :
  exists out : list (list R),
    V.param_head BITMOJI_PARAM_SPLIT flat = Some out /\
    has_shape out n (sum_list BITMOJI_PARAM_SPLIT) /\
    forall b row, flat !! b = Some row ->
      exists out_row,
        out !! b = Some out_row /\
        out_row
          = concat (map (fun k => V.softmax_row
                                    (V.segment BITMOJI_PARAM_SPLIT k row))
                        (seq 0 (length BITMOJI_PARAM_SPLIT))) /\
        Forall (fun x => (0 <= x)%R) out_row /\
        forall k, k < length BITMOJI_PARAM_SPLIT ->
          V.segment BITMOJI_PARAM_SPLIT k out_row
            = V.softmax_row (V.segment BITMOJI_PARAM_SPLIT k row) /\
          V.rsum (V.segment BITMOJI_PARAM_SPLIT k out_row) = 1%R.
Proof.
  rewrite (param_head_rows _ _ n Hsplit Hflat).
  eexists. split; [reflexivity|].
  destruct Hflat as [Hn Hrows]. rewrite Forall_lookup in Hrows.
  split.
  - split; [by rewrite length_map|].
    apply Forall_lookup. intros b out_row Hout.
    rewrite list_lookup_fmap in Hout.
    destruct (flat !! b) as [row|] eqn:Hrow; simpl in Hout; [|done].
    injection Hout as <-.
    rewrite length_concat_sum, softmax_segments_lengths; [done|eauto].
  - intros b row Hrow. eexists. split.
    { rewrite list_lookup_fmap, Hrow. reflexivity. }
    split; [reflexivity|].
    pose proof (Hrows _ _ Hrow) as Hlen.
    split.
    + apply Forall_concat, Forall_forall. intros p Hp.
      apply list_elem_of_fmap in Hp as (k & -> & _).
      apply softmax_row_nonneg.
    + intros k Hk.
      assert (Hseg : V.segment BITMOJI_PARAM_SPLIT k
                (concat (map (fun k => V.softmax_row
                                         (V.segment BITMOJI_PARAM_SPLIT k row))
                             (seq 0 (length BITMOJI_PARAM_SPLIT))))
              = V.softmax_row (V.segment BITMOJI_PARAM_SPLIT k row)).
      { rewrite <- (softmax_segments_lengths _ row Hlen) at 1.
        apply segment_concat.
        rewrite list_lookup_fmap, lookup_seq_lt by done. done. }
      split; [exact Hseg|]. rewrite Hseg.
      apply rsum_softmax_row. intros Hnil.
      apply (f_equal length) in Hnil.
      rewrite length_segment in Hnil by done.
      rewrite Forall_lookup in Hpos.
      destruct (lookup_lt_is_Some_2 _ _ Hk) as [size Hsize].
      rewrite (list_lookup_total_correct _ _ _ Hsize) in Hnil.
      specialize (Hpos _ _ Hsize). simpl in Hnil. lia.
Qed.

(** ** The head of the parameter encoder, in the graph *)

(** The value of a rank-2 graph node over the reals.  [leaf] gives the
    values of the nodes that are not interpreted here: placeholders, layers
    with weights, sampling ops. *)
Lemma split_rows (sizes : list nat) (flat : list (list R)) n :
  has_shape flat n (sum_list sizes) ->
  V.split flat sizes
  = Some (map (fun k => map (V.segment sizes k) flat) (seq 0 (length sizes))).
Proof.
  intros H. unfold V.split. by rewrite (forallb_row_lengths _ _ _ H).
Qed.

Lemma denote_split_parts leaf x sizes flat n ks :
  leaf x = Some flat -> has_shape flat n (sum_list sizes) ->
  Forall (fun k => k < length sizes) ks ->
  denote leaf x = leaf x ->
  mapM (denote leaf) (map Softmax (map (fun k => Split sizes k x) ks))
  = Some (map (fun k => V.softmax (map (V.segment sizes k) flat)) ks).
Proof.
  intros Hleaf Hflat Hks Hx. induction Hks as [|k ks Hk _ IH]; [done|].
  cbn [map mapM]. rewrite IH. cbn [denote].
  rewrite Hx, Hleaf. cbn [mbind option_bind].
  rewrite (split_rows _ _ _ Hflat). cbn [mbind option_bind].
  rewrite list_lookup_fmap, lookup_seq_lt by done. done.
Qed.

Lemma denote_param_head leaf preds sizes flat n :
  leaf (Flatten preds) = Some flat -> has_shape flat n (sum_list sizes) ->
  denote leaf (Concat (map Softmax (split (Flatten preds) sizes)) 1)
  = V.param_head sizes flat.
Proof.
  intros Hleaf Hflat. unfold split, V.param_head. cbn [denote].
  rewrite (denote_split_parts leaf (Flatten preds) sizes flat n);
    [|done|done| |reflexivity].
  - rewrite (split_rows _ _ _ Hflat). cbn [mbind option_bind].
    by rewrite map_map.
  - apply Forall_forall. intros k Hk.
    apply list_elem_of_In, in_seq in Hk. lia.
Qed.

(** C4.  Whenever the parameter encoder returns, its output is the
    concatenation, in order, of one softmax per entry of
    [BITMOJI_PARAM_SPLIT] over the segments [tf.split] cuts out of the
    flattened convolution stack.  On values: whatever the flattened
    activations are, provided their width is the sum of the (positive)
    segment sizes, the output has their shape, every entry is non-negative,
    and each configured segment of an output row is the softmax of the same
    segment of the input row and sums to 1. *)
Theorem param_encoder_segments_are_distributions
    (archs : archs_module) (args : cli_args) (BITMOJI_PARAM_SPLIT : list nat)
    (gen_faces : tensor) (s : state) (p : tensor) (s' : state)
    (Hrun : _param_encoder archs args BITMOJI_PARAM_SPLIT gen_faces s
            = (inr p, s'))
    (Hsplit : BITMOJI_PARAM_SPLIT <> [])
    (Hpos : Forall (fun size => 0 < size) BITMOJI_PARAM_SPLIT) :
  exists preds : tensor,
    p = Concat (map Softmax (split (Flatten preds) BITMOJI_PARAM_SPLIT)) 1 /\
    forall (leaf : tensor -> option (list (list R))) (flat : list (list R))
           (n : nat),
      leaf (Flatten preds) = Some flat ->
      has_shape flat n (sum_list BITMOJI_PARAM_SPLIT) ->
      exists out : list (list R),
        denote leaf p = Some out /\
        has_shape out n (sum_list BITMOJI_PARAM_SPLIT) /\
        forall b row, flat !! b = Some row ->
          exists out_row,
            out !! b = Some out_row /\
            out_row
              = concat (map (fun k => V.softmax_row
                                        (V.segment BITMOJI_PARAM_SPLIT k row))
                            (seq 0 (length BITMOJI_PARAM_SPLIT))) /\
            Forall (fun x => (0 <= x)%R) out_row /\
            forall k, k < length BITMOJI_PARAM_SPLIT ->
              V.segment BITMOJI_PARAM_SPLIT k out_row
                = V.softmax_row (V.segment BITMOJI_PARAM_SPLIT k row) /\
              V.rsum (V.segment BITMOJI_PARAM_SPLIT k out_row) = 1%R.
Proof.
  unfold _param_encoder in Hrun.
  apply bind_inv in Hrun as (preds & s1 & _ & Hret).
  injection Hret as <- _. exists preds. split; [reflexivity|].
  intros leaf flat n Hleaf Hflat.
  rewrite (denote_param_head _ _ _ _ n Hleaf Hflat).
  by apply param_head_segments_are_distributions.
Qed.

Lemma param_encoder_segments_are_distributions_witness :
  exists preds : tensor,
    Example.predicted
    = Concat (map Softmax (split (Flatten preds) Example.BITMOJI_PARAM_SPLIT)) 1 /\
    forall (leaf : tensor -> option (list (list R))) (flat : list (list R))
           (n : nat),
      leaf (Flatten preds) = Some flat ->
      has_shape flat n (sum_list Example.BITMOJI_PARAM_SPLIT) ->
      exists out : list (list R),
        denote leaf Example.predicted = Some out /\
        has_shape out n (sum_list Example.BITMOJI_PARAM_SPLIT) /\
        forall b row, flat !! b = Some row ->
          exists out_row,
            out !! b = Some out_row /\
            out_row
              = concat (map (fun k => V.softmax_row
                                        (V.segment Example.BITMOJI_PARAM_SPLIT k row))
                            (seq 0 (length Example.BITMOJI_PARAM_SPLIT))) /\
            Forall (fun x => (0 <= x)%R) out_row /\
            forall k, k < length Example.BITMOJI_PARAM_SPLIT ->
              V.segment Example.BITMOJI_PARAM_SPLIT k out_row
                = V.softmax_row (V.segment Example.BITMOJI_PARAM_SPLIT k row) /\
              V.rsum (V.segment Example.BITMOJI_PARAM_SPLIT k out_row) = 1%R.
Proof.
  apply (param_encoder_segments_are_distributions
           Example.archs Example.args Example.BITMOJI_PARAM_SPLIT
           Example.gen_faces Example.s2 Example.predicted Example.s3);
    [vm_compute; reflexivity | discriminate | repeat constructor].
Defined.

(** ** Total variation, on values *)

Section Tabulate.
Context {A B C : Type}.








End Tabulate.















(** ** Every sub-network keeps to its own variable scope *)

Lemma stays_inside_ret prefix {A} (a : A) : stays_inside prefix (ret a).
Proof. intros s name _. reflexivity. Qed.

Lemma stays_inside_raise prefix {A} e : stays_inside prefix (@raise A e).
Proof. intros s name _. reflexivity. Qed.

Lemma stays_inside_bind prefix {A B} (m : M A) (k : A -> M B) :
  stays_inside prefix m -> (forall a, stays_inside prefix (k a)) ->
  stays_inside prefix (bind m k).
Proof.
  intros Hm Hk s name Hp. unfold bind. specialize (Hm s name Hp).
  destruct (m s) as [[e|a] s1]; simpl in *; [done|].
  rewrite Hk; done.
Qed.

Lemma stays_inside_for_range prefix {A} idxs (body : nat -> A -> M A) a :
  (forall i x, stays_inside prefix (body i x)) ->
  stays_inside prefix (for_range idxs body a).
Proof.
  intros Hb. revert a. induction idxs as [|i rest IH]; intros a; simpl.
  - apply stays_inside_ret.
  - apply stays_inside_bind; auto.
Qed.

Lemma stays_inside_index prefix {A} (l : list A) i :
  stays_inside prefix (index l i).
Proof. unfold index. destruct (l !! i); intros s name _; reflexivity. Qed.

Lemma stays_inside_input_channels prefix x :
  stays_inside prefix (input_channels x).
Proof.
  unfold input_channels. destruct (last_dim x); intros s name _; reflexivity.
Qed.

Lemma stays_inside_getattr prefix n : stays_inside prefix (getattr n).
Proof.
  intros s name _. unfold getattr. destruct (attrs s !! n); reflexivity.
Qed.

Lemma stays_inside_setattr prefix n t : stays_inside prefix (setattr n t).
Proof. intros s name _. reflexivity. Qed.

Lemma stays_inside_get_variable prefix mode name shape init tr :
  String.prefix prefix name = true ->
  stays_inside prefix (get_variable mode name shape init tr).
Proof.
  intros Hname s name' Hp. unfold get_variable.
  destruct (variables s !! name); destruct mode; simpl; try done;
    try (case_decide; done).
  all: apply lookup_insert_ne; intros ->; congruence.
Qed.

#[local] Hint Resolve stays_inside_ret stays_inside_raise stays_inside_index
  stays_inside_input_channels stays_inside_getattr stays_inside_setattr
  : frames.

Ltac frame_inside :=
  unfold dense, conv2d, conv2d_transpose, batch_normalization;
  repeat first
    [ progress auto with frames
    | apply stays_inside_bind; [|intros ?]
    | apply stays_inside_for_range; intros ? ?
    | apply stays_inside_get_variable; reflexivity
    | match goal with
      | |- context [if ?b then _ else _] => destruct b
      end ].

(** X1.  The generator, the discriminator, the parameter encoder and the
    avatar synthesizer create and change variables under their own scope
    name only: a variable whose name does not start with [Generator/]
    (resp. [Discriminator/], [Param_Encoder/], [Avatar_Synth/]) is the same
    before and after the call, whether the call returns or raises. *)
Theorem sub_networks_stay_inside_their_scope
    (archs : archs_module) (args : cli_args)
    (BITMOJI_PARAM_SPLIT : list nat) (BITMOJI_PARAM_SIZE : nat) (x : tensor) :
  stays_inside "Generator/" (_generator archs args x) /\
  stays_inside "Discriminator/" (_discriminator archs args x) /\
  stays_inside "Param_Encoder/" (_param_encoder archs args BITMOJI_PARAM_SPLIT x) /\
  stays_inside "Avatar_Synth/" (_avatar_synth archs BITMOJI_PARAM_SIZE x).
Proof.
  repeat split.
  - unfold _generator. frame_inside.
  - unfold _discriminator. frame_inside.
  - unfold _param_encoder. frame_inside.
  - unfold _avatar_synth. frame_inside.
Qed.


Lemma sub_networks_stay_inside_their_scope_witness :
  variables (_generator Example.archs Example.args Example.face_encodings
                        Example.s1).2 !! "Discriminator/Conv_0/kernel"
  = variables Example.s1 !! "Discriminator/Conv_0/kernel".
Proof.
  apply (proj1 (sub_networks_stay_inside_their_scope
                  Example.archs Example.args Example.BITMOJI_PARAM_SPLIT
                  Example.BITMOJI_PARAM_SIZE Example.face_encodings)).
  reflexivity.
Defined.

(** ** Nothing overwrites a variable of the graph *)

Lemma keeps_existing_raise {A} e : keeps_existing (@raise A e).
Proof. intros s name v H. exact H. Qed.

Lemma keeps_existing_index {A} (l : list A) i : keeps_existing (index l i).
Proof. unfold index. destruct (l !! i); intros s name v H; exact H. Qed.

Lemma keeps_existing_input_channels x : keeps_existing (input_channels x).
Proof.
  unfold input_channels. destruct (last_dim x); intros s name v H; exact H.
Qed.

Lemma keeps_existing_getattr n : keeps_existing (getattr n).
Proof.
  intros s name v H. unfold getattr. destruct (attrs s !! n); exact H.
Qed.

Lemma keeps_existing_setattr n t : keeps_existing (setattr n t).
Proof. intros s name v H. exact H. Qed.

Lemma keeps_existing_random_normal shape : keeps_existing (random_normal shape).
Proof. intros s name v H. exact H. Qed.

Lemma keeps_existing_for_range {A} idxs (body : nat -> A -> M A) a :
  (forall i x, keeps_existing (body i x)) ->
  keeps_existing (for_range idxs body a).
Proof.
  intros Hb. revert a. induction idxs as [|i rest IH]; intros a; simpl.
  - apply keeps_existing_ret.
  - apply keeps_existing_bind; auto.
Qed.

#[local] Hint Resolve keeps_existing_ret keeps_existing_raise
  keeps_existing_index keeps_existing_input_channels keeps_existing_getattr
  keeps_existing_setattr keeps_existing_random_normal
  keeps_existing_get_variable : frames.

Ltac frame_existing :=
  unfold dense, conv2d, conv2d_transpose, batch_normalization;
  repeat first
    [ progress auto with frames
    | apply keeps_existing_bind; [|intros ?]
    | apply keeps_existing_for_range; intros ? ?
    | match goal with
      | |- context [if ?b then _ else _] => destruct b
      end ].

(** ** A second call goes through the variables of the first *)

Lemma included_refl s : included s s.
Proof. intros name v H. exact H. Qed.

Lemma replays_ret {A} (R : A -> A -> Prop) a1 a2 :
  R a1 a2 -> replays R (ret a1) (ret a2).
Proof.
  intros HR s b1 s1 [= <- <-] S _. exists a2. done.
Qed.

Lemma replays_bind {A B} (R : A -> A -> Prop) (R' : B -> B -> Prop)
    (m1 m2 : M A) (k1 k2 : A -> M B) :
  replays R m1 m2 ->
  (forall a1 a2, R a1 a2 -> replays R' (k1 a1) (k2 a2)) ->
  (forall a1, keeps_existing (k1 a1)) ->
  replays R' (bind m1 k1) (bind m2 k2).
Proof.
  intros Hm Hk Hkeep s b1 s2 Hrun S Hinc.
  apply bind_inv in Hrun as (a1 & s1 & Hm1 & Hk1).
  assert (Hinc1 : included s1 S).
  { intros name v Hv. apply Hinc.
    pose proof (Hkeep a1 s1 name v Hv) as Hlater. by rewrite Hk1 in Hlater. }
  destruct (Hm _ _ _ Hm1 S Hinc1) as (a2 & Hm2 & HR).
  destruct (Hk _ _ HR _ _ _ Hk1 S Hinc) as (b2 & Hk2 & HR').
  exists b2. split; [|done]. by rewrite (bind_inr _ _ _ _ _ Hm2).
Qed.

Lemma replays_for_range {A} (R : A -> A -> Prop) idxs
    (body1 body2 : nat -> A -> M A) a1 a2 :
  (forall i x1 x2, R x1 x2 -> replays R (body1 i x1) (body2 i x2)) ->
  (forall i x, keeps_existing (body1 i x)) ->
  R a1 a2 ->
  replays R (for_range idxs body1 a1) (for_range idxs body2 a2).
Proof.
  intros Hbody Hkeep. revert a1 a2.
  induction idxs as [|i rest IH]; intros a1 a2 HR; simpl.
  - by apply replays_ret.
  - apply (replays_bind R); [by apply Hbody|by apply IH|].
    intros a. by apply keeps_existing_for_range.
Qed.

Lemma replays_index {A} (l : list A) i : replays eq (index l i) (index l i).
Proof.
  intros s a s1 Hrun S _. apply index_inv in Hrun as [Hl _].
  exists a. split; [by apply index_Some|done].
Qed.

Lemma replays_input_channels x1 x2 :
  same_channels x1 x2 -> replays eq (input_channels x1) (input_channels x2).
Proof.
  unfold same_channels, input_channels. intros <- s d s1 Hrun S _.
  destruct (last_dim x1); [|discriminate].
  injection Hrun as <- _. by exists n.
Qed.

Lemma replays_get_variable name shape init tr :
  replays eq (get_variable AUTO_REUSE name shape init tr)
             (get_variable AUTO_REUSE name shape init tr).
Proof.
  intros s [] s1 Hrun S Hinc. exists tt. split; [|done].
  assert (Hv : exists v, variables s1 !! name = Some v /\ var_shape v = shape).
  { unfold get_variable in Hrun.
    destruct (variables s !! name) as [v|] eqn:Hname.
    - destruct (decide (var_shape v = shape)); [|discriminate].
      injection Hrun as <-. eauto.
    - injection Hrun as <-. simpl. rewrite lookup_insert_eq. eauto. }
  destruct Hv as (v & Hv & Hshape).
  by apply (get_variable_shared _ _ _ _ _ v); [apply Hinc|].
Qed.

#[local] Hint Resolve replays_index replays_get_variable : frames.

Section ReplayLayers.
Variable sc : var_scope.
Hypothesis Hsc : scope_reuse sc = AUTO_REUSE.

Lemma replays_conv2d x1 x2 f k st p act ki bi name tr :
  same_channels x1 x2 ->
  replays same_channels (conv2d sc x1 f k st p act ki bi name tr)
                        (conv2d sc x2 f k st p act ki bi name tr).
Proof.
  intros Hx. unfold conv2d. simpl. rewrite Hsc.
  apply (replays_bind eq); [by apply replays_input_channels| |intros; frame_existing].
  intros d ? <-.
  apply (replays_bind eq); [apply replays_get_variable| |intros; frame_existing].
  intros _ _ _.
  apply (replays_bind eq); [apply replays_get_variable| |intros; frame_existing].
  intros _ _ _. by apply replays_ret.
Qed.

Lemma replays_conv2d_transpose x1 x2 f k st p act ki bi name tr :
  same_channels x1 x2 ->
  replays same_channels (conv2d_transpose sc x1 f k st p act ki bi name tr)
                        (conv2d_transpose sc x2 f k st p act ki bi name tr).
Proof.
  intros Hx. unfold conv2d_transpose. simpl. rewrite Hsc.
  apply (replays_bind eq); [by apply replays_input_channels| |intros; frame_existing].
  intros d ? <-.
  apply (replays_bind eq); [apply replays_get_variable| |intros; frame_existing].
  intros _ _ _.
  apply (replays_bind eq); [apply replays_get_variable| |intros; frame_existing].
  intros _ _ _. by apply replays_ret.
Qed.

Lemma replays_batch_normalization x1 x2 name tr :
  same_channels x1 x2 ->
  replays same_channels (batch_normalization sc x1 name tr)
                        (batch_normalization sc x2 name tr).
Proof.
  intros Hx. unfold batch_normalization. simpl. rewrite Hsc.
  apply (replays_bind eq); [by apply replays_input_channels| |intros; frame_existing].
  intros d ? <-.
  do 4 (apply (replays_bind eq);
        [apply replays_get_variable| |intros; frame_existing]; intros _ _ _).
  by apply replays_ret.
Qed.

Lemma replays_dense x1 x2 u act ki bi name :
  same_channels x1 x2 ->
  replays same_channels (dense sc x1 u act ki bi name reuse_False)
                        (dense sc x2 u act ki bi name reuse_False).
Proof.
  intros Hx. unfold dense. simpl. rewrite Hsc.
  apply (replays_bind eq); [by apply replays_input_channels| |intros; frame_existing].
  intros d ? <-.
  do 2 (apply (replays_bind eq);
        [apply replays_get_variable| |intros; frame_existing]; intros _ _ _).
  by apply replays_ret.
Qed.
End ReplayLayers.

Lemma same_channels_dropout keep x1 x2 :
  same_channels x1 x2 -> same_channels (Dropout keep x1) (Dropout keep x2).
Proof. done. Qed.

(** Replays one more statement of a network body. *)
Ltac replay :=
  repeat first
    [ apply replays_ret; first [assumption | by apply same_channels_dropout
                                | reflexivity]
    | apply (replays_bind eq);
        [apply replays_index | intros ? ? <- | intros; frame_existing]
    | apply (replays_bind same_channels);
        [ first [ apply replays_conv2d | apply replays_conv2d_transpose
                | apply replays_batch_normalization | apply replays_dense ];
          first [reflexivity | assumption]
        | intros ? ? ?
        | intros; frame_existing ]
    | match goal with
      | |- context [if ?b then _ else _] => destruct b
      end ].

Section SecondCalls.
Variables (archs : archs_module) (args : cli_args).
Variable BITMOJI_PARAM_SPLIT : list nat.

Lemma discriminator_replays imgs1 imgs2 :
  same_channels imgs1 imgs2 ->
  replays same_channels (_discriminator archs args imgs1)
                        (_discriminator archs args imgs2).
Proof.
  intros Himgs. unfold _discriminator.
  apply replays_for_range; [|intros; frame_existing|done].
  intros i x1 x2 Hx. replay.
Qed.

Lemma generator_replays encodings1 encodings2 :
  same_channels encodings1 encodings2 ->
  replays same_channels (_generator archs args encodings1)
                        (_generator archs args encodings2).
Proof.
  intros Henc. unfold _generator.
  apply (replays_bind same_channels);
    [by apply replays_dense| |intros; frame_existing].
  intros fc1 fc2 _.
  apply replays_for_range; [|intros; frame_existing|done].
  intros i x1 x2 Hx. replay.
Qed.

Lemma param_encoder_replays gen_faces1 gen_faces2 :
  same_channels gen_faces1 gen_faces2 ->
  replays (fun _ _ => True)
          (_param_encoder archs args BITMOJI_PARAM_SPLIT gen_faces1)
          (_param_encoder archs args BITMOJI_PARAM_SPLIT gen_faces2).
Proof.
  intros Hfaces. unfold _param_encoder.
  apply (replays_bind same_channels); [| |intros; frame_existing].
  - apply replays_for_range; [|intros; frame_existing|done].
    intros i x1 x2 Hx. replay.
  - intros. by apply replays_ret.
Qed.

(** X2.  Once a call of the discriminator has returned, a later call on
    images with the same number of channels, in any graph that still holds
    the variables of the first call, leaves the graph as it is, whether it
    returns or raises: no variable is created, the weights of the first call
    are the only ones it can use. *)
Theorem discriminator_second_call_reuses_weights imgs1 imgs2 s d1 s1 S
    (Hfirst : _discriminator archs args imgs1 s = (inr d1, s1))
    (Hchannels : same_channels imgs1 imgs2)
    (Hlater : included s1 S) :
  (_discriminator archs args imgs2 S).2 = S.
Proof.
  destruct (discriminator_replays _ _ Hchannels _ _ _ Hfirst S Hlater)
    as (d2 & Hd2 & _). by rewrite Hd2.
Qed.

(** X3.  Once a call of the generator has returned, a later call on
    encodings of the same width, in any graph that still holds the variables
    of the first call, returns as well and leaves the graph as it is: the
    projection [FC] and every stage use the weights of the first call. *)
Theorem generator_second_call_reuses_weights encodings1 encodings2 s g1 s1 S
    (Hfirst : _generator archs args encodings1 s = (inr g1, s1))
    (Hchannels : same_channels encodings1 encodings2)
    (Hlater : included s1 S) :
  exists g2, _generator archs args encodings2 S = (inr g2, S) /\
             same_channels g1 g2.
Proof. by eapply generator_replays. Qed.

(** X4.  Once a call of the parameter encoder has returned, a later call
    on images with the same number of channels, in any graph that still
    holds the variables of the first call, leaves the graph as it is,
    whether it returns or raises: no variable is created. *)
Theorem param_encoder_second_call_reuses_weights faces1 faces2 s p1 s1 S
    (Hfirst : _param_encoder archs args BITMOJI_PARAM_SPLIT faces1 s = (inr p1, s1))
    (Hchannels : same_channels faces1 faces2)
    (Hlater : included s1 S) :
  (_param_encoder archs args BITMOJI_PARAM_SPLIT faces2 S).2 = S.
Proof.
  destruct (param_encoder_replays _ _ Hchannels _ _ _ Hfirst S Hlater)
    as (p2 & Hp2 & _). by rewrite Hp2.
Qed.
End SecondCalls.


Lemma discriminator_second_call_reuses_weights_witness :
  (_discriminator Example.archs Example.args Example.face_imgs Rerun.s4).2
  = Rerun.s4.
Proof.
  apply (discriminator_second_call_reuses_weights
           Example.archs Example.args Example.bitmoji_imgs Example.face_imgs
           Example.s3 Rerun.d_preds_real Rerun.s4 Rerun.s4);
    [vm_compute; reflexivity | reflexivity | apply included_refl].
Defined.

Lemma generator_second_call_reuses_weights_witness :
  exists g2,
    _generator Example.archs Example.args Example.encodings Example.s2
    = (inr g2, Example.s2) /\
    same_channels Example.gen_faces g2.
Proof.
  apply (generator_second_call_reuses_weights
           Example.archs Example.args Example.face_encodings Example.encodings
           Example.s1 Example.gen_faces Example.s2 Example.s2);
    [vm_compute; reflexivity | reflexivity | apply included_refl].
Defined.

Lemma param_encoder_second_call_reuses_weights_witness :
  (_param_encoder Example.archs Example.args Example.BITMOJI_PARAM_SPLIT
                  Example.bitmoji_imgs Example.s3).2
  = Example.s3.
Proof.
  apply (param_encoder_second_call_reuses_weights
           Example.archs Example.args Example.BITMOJI_PARAM_SPLIT
           Example.gen_faces Example.bitmoji_imgs
           Example.s2 Example.predicted Example.s3 Example.s3);
    [vm_compute; reflexivity | reflexivity | apply included_refl].
Defined.

(** ** A network is built only from a complete architecture *)

Lemma for_range_all {A} (P : nat -> Prop) (body : nat -> A -> M A) :
  (forall i x s t s', body i x s = (inr t, s') -> P i) ->
  forall idxs x s t s', for_range idxs body x s = (inr t, s') -> Forall P idxs.
Proof.
  intros Hbody idxs. induction idxs as [|i rest IH]; intros x s t s' H.
  - constructor.
  - simpl in H. apply bind_inv in H as (x1 & s1 & Hfirst & Hrest).
    constructor; [by eapply Hbody|by eapply IH].
Qed.

Lemma stages_covered (a : arch) :
  Forall (fun i => is_Some (filter_widths a !! i) /\
                   is_Some (strides a !! i) /\
                   is_Some (padding a !! i)) (stages a) ->
  covers_every_stage a.
Proof.
  intros H. unfold covers_every_stage.
  destruct (decide (length (conv_filters a) <= 1)) as [Hshort|Hlong];
    [repeat split; lia|].
  rewrite stages_last, Forall_app, Forall_singleton in H by lia.
  destruct H as (_ & Hw & Hs & Hp).
  apply lookup_lt_is_Some_1 in Hw, Hs, Hp. repeat split; lia.
Qed.

Section CompleteArchitecture.
Variables (archs : archs_module) (args : cli_args).
Variables (BITMOJI_PARAM_SPLIT : list nat) (BITMOJI_PARAM_SIZE : nat).

(** X5.  A network is built only from a complete architecture: if the
    generator, the discriminator, the parameter encoder or the avatar
    synthesizer returns, then [filter_widths], [strides] and [padding] of its
    architecture have an entry for each of the [len(conv_filters) - 1]
    stages.  With a shorter list the call raises. *)
Theorem built_networks_have_complete_architectures x s t s' :
  (_generator archs args x s = (inr t, s') ->
   covers_every_stage (generator_model archs)) /\
  (_discriminator archs args x s = (inr t, s') ->
   covers_every_stage (avatar_synth_model archs)) /\
  (_param_encoder archs args BITMOJI_PARAM_SPLIT x s = (inr t, s') ->
   covers_every_stage (param_encoder_model archs)) /\
  (_avatar_synth archs BITMOJI_PARAM_SIZE x s = (inr t, s') ->
   covers_every_stage (avatar_synth_model archs)).
Proof.
  split; [|split; [|split]].
  - unfold _generator. intros H.
    apply bind_inv in H as (fc & s1 & _ & H).
    apply stages_covered. revert H. apply for_range_all.
    clear. intros i x s t s' H. invert_run H. eauto.
  - unfold _discriminator. intros H.
    apply stages_covered. revert H. apply for_range_all.
    clear. intros i x s t s' H. invert_run H. eauto.
  - unfold _param_encoder. intros H.
    apply bind_inv in H as (preds & s1 & H & _).
    apply stages_covered. revert H. apply for_range_all.
    clear. intros i x s t s' H. invert_run H. eauto.
  - unfold _avatar_synth. intros H.
    apply stages_covered. revert H. apply for_range_all.
    clear. intros i x s t s' H. invert_run H. eauto.
Qed.

End CompleteArchitecture.

Lemma built_networks_have_complete_architectures_witness :
  covers_every_stage (avatar_synth_model Example.archs).
Proof.
  apply (proj1 (proj2 (built_networks_have_complete_architectures
                         Example.archs Example.args
                         Example.BITMOJI_PARAM_SPLIT Example.BITMOJI_PARAM_SIZE
                         Example.bitmoji_imgs Example.s3
                         Rerun.d_preds_real Rerun.s4))).
  vm_compute; reflexivity.
Defined.

(** ** The convolution stacks of the discriminator and the parameter encoder *)

Lemma is_interior_true (a : arch) i :
  i + 2 < length (conv_filters a) -> is_interior a i = true.
Proof. intros H. unfold is_interior. apply bool_decide_eq_true. lia. Qed.

Lemma is_last_false (a : arch) i :
  i + 2 < length (conv_filters a) -> is_last a i = false.
Proof. intros H. unfold is_last. apply bool_decide_eq_false. lia. Qed.

Lemma concat_replicate_snoc {A} (block : list A) k :
  (concat (replicate k block) ++ block)%list = concat (replicate (S k) block).
Proof.
  induction k as [|k IH]; simpl.
  - by rewrite app_nil_r.
  - rewrite <- app_assoc, IH. done.
Qed.

Lemma interior_conv_stages_ops (sc : var_scope) (a : arch) (keep : Q)
    (last_act : activation) idxs x s t s' :
  Forall (fun i => i + 2 < length (conv_filters a)) idxs ->
  for_range idxs (fun i preds =>
      let activation := if is_last a i then last_act else leaky_relu in
      bind (index (conv_filters a) (i + 1)) (fun filters =>
      bind (index (filter_widths a) i) (fun width =>
      bind (index (strides a) i) (fun stride =>
      bind (index (padding a) i) (fun pad =>
      bind (conv2d sc preds filters width stride pad (Some activation)
              narrow_truncated_normal_initializer zeros_initializer
              ("Conv_" +:+ str i) true) (fun preds =>
      if is_interior a i then
        bind (batch_normalization sc preds ("BN_" +:+ str i) true) (fun preds =>
        ret (Dropout keep preds))
      else ret preds)))))) x s = (inr t, s') ->
  ops t = (concat (replicate (length idxs)
                     [dropout_op; batch_norm_op; conv_op (Some leaky_relu)])
           ++ ops x)%list.
Proof.
  intros Hidxs. revert x s.
  induction Hidxs as [|i rest Hi _ IH]; intros x s H; simpl in H.
  - by injection H as <- _.
  - apply bind_inv in H as (x1 & s1 & Hfirst & Hrest).
    apply IH in Hrest. rewrite Hrest.
    rewrite (is_last_false _ _ Hi), (is_interior_true _ _ Hi) in Hfirst.
    invert_run Hfirst. injection Hfirst as <- _.
    cbn [length ops]. rewrite <- concat_replicate_snoc, <- app_assoc. done.
Qed.

Lemma conv_stack_ops (sc : var_scope) (a : arch) (keep : Q)
    (last_act : activation) x s t s' :
  2 <= length (conv_filters a) ->
  for_range (stages a) (fun i preds =>
      let activation := if is_last a i then last_act else leaky_relu in
      bind (index (conv_filters a) (i + 1)) (fun filters =>
      bind (index (filter_widths a) i) (fun width =>
      bind (index (strides a) i) (fun stride =>
      bind (index (padding a) i) (fun pad =>
      bind (conv2d sc preds filters width stride pad (Some activation)
              narrow_truncated_normal_initializer zeros_initializer
              ("Conv_" +:+ str i) true) (fun preds =>
      if is_interior a i then
        bind (batch_normalization sc preds ("BN_" +:+ str i) true) (fun preds =>
        ret (Dropout keep preds))
      else ret preds)))))) x s = (inr t, s') ->
  ops t = (conv_op (Some last_act)
           :: concat (replicate (length (conv_filters a) - 2)
                        [dropout_op; batch_norm_op; conv_op (Some leaky_relu)])
           ++ ops x)%list.
Proof.
  intros Hlen H. rewrite (stages_last _ Hlen), for_range_app in H.
  apply bind_inv in H as (x1 & s1 & Hinterior & Hlast).
  apply interior_conv_stages_ops in Hinterior.
  2: { apply Forall_forall. intros i Hi. apply list_elem_of_In, in_seq in Hi. lia. }
  rewrite length_seq in Hinterior.
  cbn [for_range] in Hlast.
  apply bind_inv in Hlast as (t' & s2 & Hbody & Hret). injection Hret as <- _.
  rewrite (is_last_last _ Hlen), is_interior_last in Hbody.
  invert_run Hbody. injection Hbody as <- _.
  cbn [ops]. by rewrite Hinterior.
Qed.

(** X7.  When the discriminator returns on an architecture with at least
    one stage, its output is, from the output down to the images: one
    convolution with a sigmoid, then for each of the [len(conv_filters) - 2]
    interior stages a dropout, a batch normalisation and a convolution with
    a leaky ReLU.  The last stage has neither batch normalisation nor
    dropout. *)
Theorem discriminator_stack_ends_with_sigmoid
    (archs : archs_module) (args : cli_args) (imgs : tensor) s d s'
    (Hstage : 2 <= length (conv_filters (avatar_synth_model archs)))
    (Hrun : _discriminator archs args imgs s = (inr d, s')) :
  ops d = (conv_op (Some sigmoid)
           :: concat (replicate (length (conv_filters (avatar_synth_model archs)) - 2)
                        [dropout_op; batch_norm_op; conv_op (Some leaky_relu)])
           ++ ops imgs)%list.
Proof. by eapply conv_stack_ops. Qed.

(** X8.  When the parameter encoder returns on an architecture with at
    least one stage, its output is the concatenation of one softmax per entry
    of [BITMOJI_PARAM_SPLIT], over the flattened output of a convolution
    stack that ends with a sigmoid convolution: the softmax logits all lie
    between 0 and 1.  Below it every interior stage is a convolution with a
    leaky ReLU, a batch normalisation and a dropout. *)
Theorem param_encoder_stack_ends_with_sigmoid
    (archs : archs_module) (args : cli_args) (BITMOJI_PARAM_SPLIT : list nat)
    (gen_faces : tensor) s p s'
    (Hstage : 2 <= length (conv_filters (param_encoder_model archs)))
    (Hrun : _param_encoder archs args BITMOJI_PARAM_SPLIT gen_faces s = (inr p, s')) :
  exists preds,
    p = Concat (map Softmax (split (Flatten preds) BITMOJI_PARAM_SPLIT)) 1 /\
    length (split (Flatten preds) BITMOJI_PARAM_SPLIT)
      = length BITMOJI_PARAM_SPLIT /\
    ops preds
      = (conv_op (Some sigmoid)
         :: concat (replicate (length (conv_filters (param_encoder_model archs)) - 2)
                      [dropout_op; batch_norm_op; conv_op (Some leaky_relu)])
         ++ ops gen_faces)%list.
Proof.
  unfold _param_encoder in Hrun.
  apply bind_inv in Hrun as (preds & s1 & Hstack & Hret).
  injection Hret as <- _. exists preds. split; [done|]. split.
  - unfold split. by rewrite length_map, length_seq.
  - by eapply conv_stack_ops.
Qed.


Lemma discriminator_stack_ends_with_sigmoid_witness :
  ops Rerun.d_preds_real
  = [conv_op (Some sigmoid);
     dropout_op; batch_norm_op; conv_op (Some leaky_relu)].
Proof.
  apply (discriminator_stack_ends_with_sigmoid
           Example.archs Example.args Example.bitmoji_imgs
           Example.s3 Rerun.d_preds_real Rerun.s4);
    [simpl; lia | vm_compute; reflexivity].
Defined.

Lemma param_encoder_stack_ends_with_sigmoid_witness :
  exists preds,
    Example.predicted
    = Concat (map Softmax (split (Flatten preds) Example.BITMOJI_PARAM_SPLIT)) 1 /\
    length (split (Flatten preds) Example.BITMOJI_PARAM_SPLIT) = 2 /\
    ops preds
    = (conv_op (Some sigmoid)
       :: [dropout_op; batch_norm_op; conv_op (Some leaky_relu)]
       ++ ops Example.gen_faces)%list.
Proof.
  apply (param_encoder_stack_ends_with_sigmoid
           Example.archs Example.args Example.BITMOJI_PARAM_SPLIT
           Example.gen_faces Example.s2 Example.predicted Example.s3);
    [simpl; lia | vm_compute; reflexivity].
Defined.

(** ** What the avatar synthesizer keeps frozen *)

Lemma keeps_frozen_ret prefix {A} (a : A) : keeps_frozen prefix (ret a).
Proof. intros s H. exact H. Qed.

Lemma keeps_frozen_raise prefix {A} e : keeps_frozen prefix (@raise A e).
Proof. intros s H. exact H. Qed.

Lemma keeps_frozen_bind prefix {A B} (m : M A) (k : A -> M B) :
  keeps_frozen prefix m -> (forall a, keeps_frozen prefix (k a)) ->
  keeps_frozen prefix (bind m k).
Proof.
  intros Hm Hk s Hs. unfold bind. specialize (Hm s Hs).
  destruct (m s) as [[e|a] s1]; simpl in *; [done|].
  by apply Hk.
Qed.

Lemma keeps_frozen_for_range prefix {A} idxs (body : nat -> A -> M A) a :
  (forall i x, keeps_frozen prefix (body i x)) ->
  keeps_frozen prefix (for_range idxs body a).
Proof.
  intros Hb. revert a. induction idxs as [|i rest IH]; intros a; simpl.
  - apply keeps_frozen_ret.
  - apply keeps_frozen_bind; auto.
Qed.

Lemma keeps_frozen_index prefix {A} (l : list A) i :
  keeps_frozen prefix (index l i).
Proof. unfold index. destruct (l !! i); intros s H; exact H. Qed.

Lemma keeps_frozen_input_channels prefix x :
  keeps_frozen prefix (input_channels x).
Proof. unfold input_channels. destruct (last_dim x); intros s H; exact H. Qed.

Lemma keeps_frozen_getattr prefix n : keeps_frozen prefix (getattr n).
Proof. intros s H. unfold getattr. destruct (attrs s !! n); exact H. Qed.

Lemma keeps_frozen_setattr prefix n t : keeps_frozen prefix (setattr n t).
Proof. intros s H. exact H. Qed.

Lemma keeps_frozen_get_variable prefix mode name shape init tr :
  tr = false \/ String.prefix prefix name = false ->
  keeps_frozen prefix (get_variable mode name shape init tr).
Proof.
  intros Hname s Hs. unfold get_variable.
  destruct (variables s !! name) eqn:Hlookup; destruct mode; simpl; try done;
    try (case_decide; done).
  all: intros name' v Hp Hv; simpl in Hv;
    destruct (decide (name = name')) as [<-|Hne];
    [ rewrite lookup_insert_eq in Hv; injection Hv as <-; simpl;
      destruct Hname; congruence
    | rewrite lookup_insert_ne in Hv by done; by eapply Hs ].
Qed.

#[local] Hint Resolve keeps_frozen_ret keeps_frozen_raise keeps_frozen_index
  keeps_frozen_input_channels keeps_frozen_getattr keeps_frozen_setattr
  : frames.

Ltac frame_frozen :=
  unfold dense, conv2d, conv2d_transpose, batch_normalization;
  repeat first
    [ progress auto with frames
    | apply keeps_frozen_bind; [|intros ?]
    | apply keeps_frozen_for_range; intros ? ?
    | apply keeps_frozen_get_variable; first [left; reflexivity | right; reflexivity]
    | match goal with
      | |- context [if ?b then _ else _] => destruct b
      end ].

(** X9.  The avatar synthesizer creates no trainable variable under
    [Avatar_Synth/Deconv_] or [Avatar_Synth/Conv_]: if none was trainable
    before the call, none is after it.  Its (de)convolutions are built with
    [trainable=False]. *)
Theorem avatar_synth_convolutions_are_frozen
    (archs : archs_module) (BITMOJI_PARAM_SIZE : nat) (params : tensor) :
  keeps_frozen "Avatar_Synth/Deconv_"
               (_avatar_synth archs BITMOJI_PARAM_SIZE params) /\
  keeps_frozen "Avatar_Synth/Conv_"
               (_avatar_synth archs BITMOJI_PARAM_SIZE params).
Proof.
  split; unfold _avatar_synth; frame_frozen.
Qed.

Lemma avatar_synth_convolutions_are_frozen_witness :
  frozen "Avatar_Synth/Deconv_"
         (_avatar_synth Example.archs Example.BITMOJI_PARAM_SIZE
                        Example.params Example.with_preds).2.
Proof.
  apply (proj1 (avatar_synth_convolutions_are_frozen
                  Example.archs Example.BITMOJI_PARAM_SIZE Example.params)).
  intros name v _ Hv. vm_compute in Hv. discriminate.
Defined.

(** ** The loss block on a shape it cannot unpack *)




(** ** The attributes [_build_graph] assigns *)

Lemma assigns_only_keeps_attrs names {A} (m : M A) :
  keeps_attrs m -> assigns_only names m.
Proof. intros H s name _. by rewrite H. Qed.

Lemma assigns_only_bind names {A B} (m : M A) (k : A -> M B) :
  assigns_only names m -> (forall a, assigns_only names (k a)) ->
  assigns_only names (bind m k).
Proof.
  intros Hm Hk s name Hname. unfold bind. specialize (Hm s name Hname).
  destruct (m s) as [[e|a] s1]; simpl in *; [done|].
  by rewrite Hk.
Qed.

Lemma assigns_only_for_range names {A} idxs (body : nat -> A -> M A) a :
  (forall i x, assigns_only names (body i x)) ->
  assigns_only names (for_range idxs body a).
Proof.
  intros Hb. revert a. induction idxs as [|i rest IH]; intros a; simpl.
  - apply assigns_only_keeps_attrs, keeps_attrs_ret.
  - apply assigns_only_bind; auto.
Qed.

Lemma assigns_only_setattr names n t :
  n ∈ names -> assigns_only names (setattr n t).
Proof.
  intros Hn s name Hname. unfold setattr. simpl.
  apply lookup_insert_ne. intros ->. done.
Qed.

Lemma keeps_attrs_getattr n : keeps_attrs (getattr n).
Proof. intros s. unfold getattr. by destruct (attrs s !! n). Qed.

Lemma keeps_attrs_zeros shape : keeps_attrs (zeros shape).
Proof. intros s. unfold zeros. by destruct (forallb _ _). Qed.

Lemma keeps_attrs_unpack4 shape : keeps_attrs (unpack4 shape).
Proof.
  intros s. unfold unpack4.
  by destruct shape as [|b [|h [|w [|c [|extra rest]]]]].
Qed.

#[local] Hint Resolve keeps_attrs_getattr keeps_attrs_zeros
  keeps_attrs_unpack4 : frames.

Section BuildGraphAttributes.
Variables (archs : archs_module) (args : cli_args).
Variables (BITMOJI_PARAM_SPLIT : list nat) (BITMOJI_PARAM_SIZE : nat).
Variable infer_shape : tensor -> list dim.

Lemma assigns_only_avatar_synth params :
  assigns_only ("preds" :: loss_names)
               (_avatar_synth archs BITMOJI_PARAM_SIZE params).
Proof.
  unfold _avatar_synth. apply assigns_only_for_range. intros i x.
  repeat (apply assigns_only_bind;
          [ first [ apply assigns_only_setattr; set_solver
                  | apply assigns_only_keeps_attrs; auto with frames ]
          | intros ? ]).
  apply assigns_only_keeps_attrs. frame.
Qed.

Lemma assigns_only_losses a b c d e f g h :
  assigns_only ("preds" :: loss_names) (losses infer_shape a b c d e f g h).
Proof.
  unfold losses.
  apply assigns_only_bind;
    [apply assigns_only_keeps_attrs, keeps_attrs_unpack4|].
  intros [[[batch height] width] channels].
  do 2 (apply assigns_only_bind;
        [apply assigns_only_keeps_attrs, keeps_attrs_zeros|intros ?]).
  repeat (apply assigns_only_bind; [|intros ?]);
    apply assigns_only_setattr; unfold loss_names; set_solver.
Qed.

(** X11.  [_build_graph] assigns no attribute of [self] other than [preds]
    (which the avatar synthesizer overwrites at each stage) and the six
    losses [l_c], [l_const], [l_gan_d], [l_gan_g], [l_tid] and [l_tv],
    whether it returns or raises; in particular it never defines
    [self.cost]. *)
Theorem build_graph_assigns_only_preds_and_the_losses inputs :
  assigns_only ("preds" :: loss_names)
    (_build_graph archs args BITMOJI_PARAM_SPLIT BITMOJI_PARAM_SIZE infer_shape
                  inputs).
Proof.
  destruct inputs as [face_imgs bitmoji_imgs]. unfold _build_graph.
  do 9 (apply assigns_only_bind;
          [ first [ apply assigns_only_avatar_synth
                  | apply assigns_only_keeps_attrs; auto with frames ]
          | intros ? ]).
  apply assigns_only_losses.
Qed.
End BuildGraphAttributes.

Lemma build_graph_assigns_only_preds_and_the_losses_witness :
  attrs (_build_graph Example.archs Example.args Example.BITMOJI_PARAM_SPLIT
                      Example.BITMOJI_PARAM_SIZE Example.infer_shape
                      (Example.face_imgs, Example.bitmoji_imgs) fresh).2
    !! "cost"
  = attrs fresh !! "cost".
Proof.
  apply (build_graph_assigns_only_preds_and_the_losses
           Example.archs Example.args Example.BITMOJI_PARAM_SPLIT
           Example.BITMOJI_PARAM_SIZE Example.infer_shape
           (Example.face_imgs, Example.bitmoji_imgs) fresh "cost").
  apply (bool_decide_unpack _). vm_compute. exact I.
Defined.

(** ** More on the head of the parameter encoder *)

Lemma rsum_app (u v : list R) : V.rsum (u ++ v) = (V.rsum u + V.rsum v)%R.
Proof. induction u as [|x u IH]; simpl; [lra|]. rewrite IH. lra. Qed.

Lemma rsum_concat_ones (ps : list (list R)) :
  Forall (fun p => V.rsum p = 1%R) ps -> V.rsum (concat ps) = INR (length ps).
Proof.
  induction 1 as [|p ps Hp _ IH]; [done|].
  cbn [concat length]. rewrite rsum_app, Hp, IH, S_INR. lra.
Qed.

Lemma exp_below_sum (v : list R) (x : R) :
  x ∈ v -> 2 <= length v -> (exp x < V.rsum (map exp v))%R.
Proof.
  intros Hx Hlen. apply list_elem_of_split in Hx as (u & w & ->).
  rewrite map_app, rsum_app. simpl.
  pose proof (rsum_map_exp_nonneg u). pose proof (rsum_map_exp_nonneg w).
  rewrite length_app in Hlen. simpl in Hlen.
  destruct u as [|y u].
  - destruct w as [|y w]; [simpl in Hlen; lia|].
    pose proof (rsum_map_exp_pos (y :: w) ltac:(done)). simpl in *. lra.
  - pose proof (rsum_map_exp_pos (y :: u) ltac:(done)). lra.
Qed.

Lemma softmax_row_inside (v : list R) :
  2 <= length v -> Forall (fun y => (0 < y < 1)%R) (V.softmax_row v).
Proof.
  intros Hlen. unfold V.softmax_row. apply Forall_forall. intros y Hy.
  apply list_elem_of_fmap in Hy as (x & -> & Hx).
  pose proof (exp_below_sum v x Hx Hlen) as Hbelow. pose proof (exp_pos x).
  split.
  - apply Rdiv_lt_0_compat; lra.
  - apply (Rmult_lt_reg_r (V.rsum (map exp v))); [lra|].
    unfold Rdiv. rewrite Rmult_assoc, Rinv_l by lra. lra.
Qed.

(** X12.  When every entry of [BITMOJI_PARAM_SPLIT] is at least 2, every
    entry of the parameter encoder's output lies strictly between 0 and 1:
    the output is never the binary vector with one truth value per parameter
    type that the comment in the code announces. *)
Theorem param_encoder_output_is_never_one_hot
    (BITMOJI_PARAM_SPLIT : list nat) (flat : list (list R)) (n : nat)
    (Hsplit : BITMOJI_PARAM_SPLIT <> [])
    (Hsizes : Forall (fun size => 2 <= size) BITMOJI_PARAM_SPLIT)
    (Hflat : has_shape flat n (sum_list BITMOJI_PARAM_SPLIT)) :
  exists out : list (list R),
    V.param_head BITMOJI_PARAM_SPLIT flat = Some out /\
    Forall (Forall (fun y => (0 < y < 1)%R)) out.
Proof.
  rewrite (param_head_rows _ _ n Hsplit Hflat).
  eexists. split; [reflexivity|].
  destruct Hflat as [_ Hrows]. rewrite Forall_lookup in Hrows.
  apply Forall_lookup. intros b out_row Hout.
  rewrite list_lookup_fmap in Hout.
  destruct (flat !! b) as [row|] eqn:Hrow; simpl in Hout; [|done].
  injection Hout as <-.
  apply Forall_concat, Forall_forall. intros p Hp.
  apply list_elem_of_fmap in Hp as (k & -> & Hk).
  apply list_elem_of_In, in_seq in Hk.
  apply softmax_row_inside.
  rewrite length_segment by (eauto || lia).
  rewrite Forall_lookup in Hsizes.
  destruct (lookup_lt_is_Some_2 BITMOJI_PARAM_SPLIT k) as [size Hsize]; [lia|].
  rewrite (list_lookup_total_correct _ _ _ Hsize). eauto.
Qed.

Lemma param_encoder_output_is_never_one_hot_witness :
  exists out : list (list R),
    V.param_head [2; 3] [[0; 0; 0; 0; 0]%R] = Some out /\
    Forall (Forall (fun y => (0 < y < 1)%R)) out.
Proof.
  apply (param_encoder_output_is_never_one_hot [2; 3] [[0; 0; 0; 0; 0]%R] 1);
    [ discriminate
    | repeat constructor
    | split; [reflexivity | repeat constructor] ].
Defined.

(** X13.  Each row of the parameter encoder's output sums to the number of
    entries of [BITMOJI_PARAM_SPLIT] (one per softmax), not to 1. *)
Theorem param_encoder_rows_sum_to_segment_count
    (BITMOJI_PARAM_SPLIT : list nat) (flat : list (list R)) (n : nat)
    (Hsplit : BITMOJI_PARAM_SPLIT <> [])
    (Hsizes : Forall (fun size => 0 < size) BITMOJI_PARAM_SPLIT)
    (Hflat : has_shape flat n (sum_list BITMOJI_PARAM_SPLIT)) :
  exists out : list (list R),
    V.param_head BITMOJI_PARAM_SPLIT flat = Some out /\
    Forall (fun out_row => V.rsum out_row = INR (length BITMOJI_PARAM_SPLIT)) out.
Proof.
  rewrite (param_head_rows _ _ n Hsplit Hflat).
  eexists. split; [reflexivity|].
  destruct Hflat as [_ Hrows]. rewrite Forall_lookup in Hrows.
  apply Forall_lookup. intros b out_row Hout.
  rewrite list_lookup_fmap in Hout.
  destruct (flat !! b) as [row|] eqn:Hrow; simpl in Hout; [|done].
  injection Hout as <-.
  rewrite rsum_concat_ones.
  - by rewrite length_map, length_seq.
  - apply Forall_forall. intros p Hp.
    apply list_elem_of_fmap in Hp as (k & -> & Hk).
    apply list_elem_of_In, in_seq in Hk.
    apply rsum_softmax_row. intros Hnil. apply (f_equal length) in Hnil.
    rewrite length_segment in Hnil by (eauto || lia).
    rewrite Forall_lookup in Hsizes.
    destruct (lookup_lt_is_Some_2 BITMOJI_PARAM_SPLIT k) as [size Hsize]; [lia|].
    rewrite (list_lookup_total_correct _ _ _ Hsize) in Hnil.
    specialize (Hsizes _ _ Hsize). simpl in Hnil. lia.
Qed.


Lemma param_encoder_rows_sum_to_segment_count_witness :
  exists out : list (list R),
    V.param_head [2; 3] [[0; 0; 0; 0; 0]%R] = Some out /\
    Forall (fun out_row => V.rsum out_row = INR (length [2; 3])) out.
Proof.
  apply (param_encoder_rows_sum_to_segment_count [2; 3] [[0; 0; 0; 0; 0]%R] 1);
    [ discriminate
    | repeat constructor
    | split; [reflexivity | repeat constructor] ].
Defined.

(** ** Broadcasting in the re-parameterised sample *)

Lemma mapM_zip_replicate_r {A B C} (f : A -> B -> option C) (g : A -> B -> C)
    (a : list A) (y : B) :
  Forall (fun x => f x y = Some (g x y)) a ->
  mapM (fun p => f p.1 p.2) (zip a (replicate (length a) y))
  = Some (map (fun x => g x y) a).
Proof.
  induction 1 as [|x a Hx _ IH]; simpl; [done|].
  rewrite Hx. simpl. rewrite IH. done.
Qed.

Lemma mapM_zip_replicate_l {A B C} (f : A -> B -> option C) (g : A -> B -> C)
    (x : A) (b : list B) :
  Forall (fun y => f x y = Some (g x y)) b ->
  mapM (fun p => f p.1 p.2) (zip (replicate (length b) x) b)
  = Some (map (g x) b).
Proof.
  induction 1 as [|y b Hy _ IH]; simpl; [done|].
  rewrite Hy. simpl. rewrite IH. done.
Qed.

Lemma broadcast_singleton_r {A B C} (f : A -> B -> option C) (g : A -> B -> C)
    (a : list A) (y : B) :
  Forall (fun x => f x y = Some (g x y)) a ->
  V.broadcast f a [y] = Some (map (fun x => g x y) a).
Proof.
  intros H. unfold V.broadcast.
  destruct a as [|x [|x' a]].
  - done.
  - simpl. inversion H as [|? ? Hx _]; subst. by rewrite Hx.
  - replace (V.broadcast_len (length (x :: x' :: a)) (length [y]))
      with (Some (length (x :: x' :: a))) by done.
    cbn [mbind option_bind V.stretch].
    by apply mapM_zip_replicate_r.
Qed.

Lemma broadcast_singleton_l {A B C} (f : A -> B -> option C) (g : A -> B -> C)
    (x : A) (b : list B) :
  Forall (fun y => f x y = Some (g x y)) b ->
  V.broadcast f [x] b = Some (map (g x) b).
Proof.
  intros H. unfold V.broadcast.
  destruct b as [|y [|y' b]].
  - done.
  - simpl. inversion H as [|? ? Hy _]; subst. by rewrite Hy.
  - replace (V.broadcast_len (length [x]) (length (y :: y' :: b)))
      with (Some (length (y :: y' :: b))) by done.
    cbn [mbind option_bind V.stretch].
    by apply mapM_zip_replicate_l.
Qed.

Lemma broadcast_rows_same (f : R -> R -> R) (u v : list R) :
  length u = length v ->
  V.broadcast (fun x y => Some (f x y)) u v = Some (zip_with f u v).
Proof.
  intros Hlen. apply broadcast_same.
  by apply Forall2_same_length_lookup_2.
Qed.

Lemma has_shape_lookup (m : list (list R)) n d b row :
  has_shape m n d -> m !! b = Some row -> length row = d.
Proof. intros [_ H] Hrow. rewrite Forall_lookup in H. eauto. Qed.

Lemma elementwise2_row_r (f : R -> R -> R) (a : list (list R)) (v : list R) n d :
  has_shape a n d -> length v = d ->
  V.elementwise2 f a [v] = Some (map (fun row => zip_with f row v) a).
Proof.
  intros Ha Hv. unfold V.elementwise2.
  apply (broadcast_singleton_r _ (zip_with f)).
  apply Forall_lookup. intros b row Hrow.
  apply broadcast_rows_same.
  rewrite (has_shape_lookup _ _ _ b row Ha Hrow). done.
Qed.

Lemma elementwise2_row_l (f : R -> R -> R) (u : list R) (b : list (list R)) n d :
  length u = d -> has_shape b n d ->
  V.elementwise2 f [u] b = Some (map (zip_with f u) b).
Proof.
  intros Hu Hb. unfold V.elementwise2.
  apply (broadcast_singleton_l _ (zip_with f)).
  apply Forall_lookup. intros i row Hrow.
  apply broadcast_rows_same.
  rewrite (has_shape_lookup _ _ _ i row Hb Hrow). done.
Qed.

Lemma has_shape_map_rows (f : list R -> list R) (a : list (list R)) n d :
  (forall row, length row = d -> length (f row) = d) ->
  has_shape a n d -> has_shape (map f a) n d.
Proof.
  intros Hf [Hn Hrows]. split.
  - by rewrite length_map.
  - rewrite Forall_fmap. eapply Forall_impl; [exact Hrows|].
    intros row Hrow. simpl. auto.
Qed.

Lemma elementwise2_refuses (f : R -> R -> R) (a b : list (list R)) n m :
  length a = n -> length b = m -> n <> m -> n <> 1 -> m <> 1 ->
  V.elementwise2 f a b = None.
Proof.
  intros Ha Hb Hne Hn Hm. unfold V.elementwise2, V.broadcast.
  rewrite Ha, Hb. unfold V.broadcast_len.
  by rewrite !bool_decide_eq_false_2.
Qed.

(** X14.  The noise of a model configured with [batch_size = 1] has one row; the
    encoder accepts a batch of any size, and every sample of the batch gets
    that same noise row. *)
Theorem face_encoder_shares_a_single_noise_row
    (D n : nat) (z_mean z_sigma : list (list R)) (eps : list R)
    (Hmean : has_shape z_mean n D) (Hsigma : has_shape z_sigma n D)
    (Heps : length eps = D) :
  exists out : list (list R),
    V.z_x z_mean z_sigma [eps] = Some out /\
    has_shape out n D /\
    forall b mean sigma,
      z_mean !! b = Some mean -> z_sigma !! b = Some sigma ->
      out !! b = Some (V.z_x_row mean sigma eps).
Proof.
  unfold V.z_x.
  rewrite (elementwise2_row_r _ _ _ n D) by (try apply has_shape_map; done).
  cbn [mbind option_bind].
  assert (has_shape
            (map (fun row => zip_with Rmult row eps)
                 (map (map (fun x => sqrt (exp x))) z_sigma)) n D) as Hscaled.
  { apply has_shape_map_rows; [|by apply has_shape_map].
    intros row Hrow. rewrite length_zip_with. lia. }
  rewrite (elementwise2_same _ _ _ n D) by done.
  eexists. split; [reflexivity|]. split.
  - by apply has_shape_zip_with.
  - intros b mean sigma Hm Hs.
    rewrite lookup_zip_with, Hm. simpl.
    rewrite !list_lookup_fmap, Hs. simpl.
    unfold V.z_x_row. by rewrite zip_with_fmap_l.
Qed.

Lemma face_encoder_shares_a_single_noise_row_witness :
  exists out : list (list R),
    V.z_x [[1%R]; [2%R]; [3%R]] [[0%R]; [0%R]; [0%R]] [[4%R]] = Some out /\
    has_shape out 3 1 /\
    forall b mean sigma,
      [[1%R]; [2%R]; [3%R]] !! b = Some mean ->
      [[0%R]; [0%R]; [0%R]] !! b = Some sigma ->
      out !! b = Some (V.z_x_row mean sigma [4%R]).
Proof.
  apply (face_encoder_shares_a_single_noise_row 1 3);
    [split; [reflexivity | repeat constructor]
    |split; [reflexivity | repeat constructor]
    |reflexivity].
Defined.

(** X15.  A batch of one image, on a model configured with a larger [batch_size],
    is not encoded once: broadcasting repeats its mean and deviation over the
    rows of the noise, and [batch_size] encodings come out. *)
Theorem face_encoder_repeats_a_single_sample
    (D batch_size : nat) (mean sigma : list R) (noise : list (list R))
    (Hmean : length mean = D) (Hsigma : length sigma = D)
    (Hnoise : has_shape noise batch_size D) :
  exists out : list (list R),
    V.z_x [mean] [sigma] noise = Some out /\
    has_shape out batch_size D /\
    forall b eps,
      noise !! b = Some eps -> out !! b = Some (V.z_x_row mean sigma eps).
Proof.
  unfold V.z_x. cbn [map].
  rewrite (elementwise2_row_l _ _ _ batch_size D)
    by (try rewrite length_map; done).
  cbn [mbind option_bind].
  assert (has_shape
            (map (zip_with Rmult (map (fun x => sqrt (exp x)) sigma)) noise)
            batch_size D) as Hscaled.
  { apply has_shape_map_rows; [|done].
    intros row Hrow. rewrite length_zip_with, length_map. lia. }
  rewrite (elementwise2_row_l _ _ _ batch_size D) by done.
  eexists. split; [reflexivity|]. split.
  - apply has_shape_map_rows; [|done].
    intros row Hrow. rewrite length_zip_with. lia.
  - intros b eps Heps.
    rewrite !list_lookup_fmap, Heps. simpl.
    unfold V.z_x_row. by rewrite zip_with_fmap_l.
Qed.

Lemma face_encoder_repeats_a_single_sample_witness :
  exists out : list (list R),
    V.z_x [[1%R]] [[0%R]] [[3%R]; [4%R]] = Some out /\
    has_shape out 2 1 /\
    forall b eps,
      [[3%R]; [4%R]] !! b = Some eps ->
      out !! b = Some (V.z_x_row [1%R] [0%R] eps).
Proof.
  apply (face_encoder_repeats_a_single_sample 1 2);
    [reflexivity | reflexivity | split; [reflexivity | repeat constructor]].
Defined.

(** X16.  A batch whose size is neither the configured [batch_size] nor 1, on a
    model whose [batch_size] is not 1, cannot be combined with the noise: no
    encoding comes out. *)
Theorem face_encoder_refuses_other_batch_sizes
    (batch_size n : nat) (z_mean z_sigma noise : list (list R))
    (Hsigma : length z_sigma = n) (Hnoise : length noise = batch_size)
    (Hne : n <> batch_size) (Hn : n <> 1) (Hbs : batch_size <> 1) :
  V.z_x z_mean z_sigma noise = None.
Proof.
  unfold V.z_x.
  rewrite (elementwise2_refuses _ _ _ n batch_size)
    by (try rewrite length_map; done).
  done.
Qed.

Lemma face_encoder_refuses_other_batch_sizes_witness :
  V.z_x [[0%R]; [0%R]; [0%R]] [[0%R]; [0%R]; [0%R]] [[0%R]; [0%R]] = None.
Proof.
  apply (face_encoder_refuses_other_batch_sizes 2 3); (reflexivity || lia).
Defined.

(** ** The sign of the total-variation loss *)





(** ** The synthesizer's scope holds no trainable variable *)






Lemma keeps_scope_frozen prefix prefix' {A} (m : M A) :
  (forall name, String.prefix prefix' name = true ->
                String.prefix prefix name = true) ->
  keeps_scope prefix m -> keeps_frozen prefix' m.
Proof.
  intros Hprefix Hm s Hs name v Hname Hv.
  rewrite (Hm s name (Hprefix name Hname)) in Hv. by eapply Hs.
Qed.


Section FrozenSynthesizer.
Variables (archs : archs_module) (args : cli_args).
Variables (BITMOJI_PARAM_SPLIT : list nat) (BITMOJI_PARAM_SIZE : nat).
Variable infer_shape : tensor -> list dim.







End FrozenSynthesizer.


(** ** The generator's projection at its two call sites *)




Section GeneratorProjection.
Variables (archs : archs_module) (args : cli_args).


End GeneratorProjection.


